(** * Cheerio performance optimizations: caches, fast-path search, wrapper pool

    A shallow embedding of the optimization module (selector, traversal,
    attribute and text caches; [parseSimpleSelector]; [fastFindById],
    [fastFindByClass]; [WrapperPool]) and the properties stated about it.

    Conventions of the embedding:
    - a JavaScript string is the list of its UTF-16 code units;
    - an object is known by its reference (a [positive]); a [WeakMap] keyed
      by objects is a [gmap] keyed by references, a [Set] of objects is a
      [gset] of references;
    - a module-level store that a function reads and writes is passed in and
      returned explicitly;
    - [undefined] is [None]; a value that may be [null] as well is an
      [option] inside. *)

From Stdlib Require Import ZArith QArith Qround Ascii String.
From stdpp Require Import gmap list.

Local Open Scope Z_scope.

(** ** JavaScript strings *)

Definition code_unit := N.
Abbreviation jsstring := (list N).

(** The code units of an ASCII literal, to write examples legibly. *)
Definition js (s : string) : jsstring :=
  map N_of_ascii (list_ascii_of_string s).
Arguments js s%_string.

(** [WhiteSpace] and [LineTerminator] of ECMAScript: what [String.prototype.trim]
    strips and what the regular-expression class [\s] matches. *)
Definition is_space (c : code_unit) : bool :=
  ((9 <=? c) && (c <=? 13) || (c =? 32) || (c =? 160) || (c =? 5760)
   || (8192 <=? c) && (c <=? 8202) || (c =? 8232) || (c =? 8233)
   || (c =? 8239) || (c =? 8287) || (c =? 12288) || (c =? 65279))%N.

(** The class [\w] without the unicode and ignore-case flags: [A-Za-z0-9_]. *)
Definition is_word (c : code_unit) : bool :=
  ((65 <=? c) && (c <=? 90) || (97 <=? c) && (c <=? 122)
   || (48 <=? c) && (c <=? 57) || (c =? 95))%N.

(** The class [[\w-]]. *)
Definition is_word_hyphen (c : code_unit) : bool := is_word c || (c =? 45)%N.

(** ** Document nodes (the part of domhandler the module reads) *)

Inductive ElementType :=
  | Root | Text | Directive | Comment | Script | Style | Tag | CDATA | Doctype.

(** A node as the module sees it: the object's reference, its [type], and the
    properties [name], [attribs] and [children], each of which may be missing. *)
#[warnings="-register-all"]
Inductive AnyNode : Type :=
  mkNode (ref : positive) (type : ElementType) (name : option jsstring)
         (attribs : option (gmap jsstring jsstring))
         (children : option (list AnyNode)).

Definition ref (n : AnyNode) : positive :=
  match n with mkNode r _ _ _ _ => r end.
Definition type (n : AnyNode) : ElementType :=
  match n with mkNode _ t _ _ _ => t end.
Definition name (n : AnyNode) : option jsstring :=
  match n with mkNode _ _ nm _ _ => nm end.
Definition attribs (n : AnyNode) : option (gmap jsstring jsstring) :=
  match n with mkNode _ _ _ a _ => a end.
Definition children (n : AnyNode) : option (list AnyNode) :=
  match n with mkNode _ _ _ _ ch => ch end.

(** [isTag] of domhandler: tag, script and style elements. *)
Definition isTagType (t : ElementType) : bool :=
  match t with Tag | Script | Style => true | _ => false end.
Definition isTag (n : AnyNode) : bool := isTagType (type n).

(** Induction over a node and, through the child list, its descendants. *)
Section AnyNode_induction.
Variable P : AnyNode → Prop.
Hypothesis Hnode : ∀ r t nm a ch,
  match ch with Some cs => Forall P cs | None => True end →
  P (mkNode r t nm a ch).

Fixpoint AnyNode_nested_ind (n : AnyNode) : P n :=
  match n with
  | mkNode r t nm a ch =>
      Hnode r t nm a ch
        (match ch return match ch with Some cs => Forall P cs | None => True end with
         | Some cs =>
             (fix children_ind (l : list AnyNode) : Forall P l :=
                match l with
                | [] => @List.Forall_nil _ P
                | c :: l' => @List.Forall_cons _ P c l' (AnyNode_nested_ind c) (children_ind l')
                end) cs
         | None => I
         end)
  end.
End AnyNode_induction.

(** ** Numbers of [hashChildren]

    Every number the function handles is an integer far below 2^53, so the
    double arithmetic is exact, or it is [NaN]. *)

Inductive jsnum := JNum (z : Z) | JNaN.

(** [s.charCodeAt(0)]: [NaN] on the empty string. *)
Definition charCodeAt0 (s : jsstring) : jsnum :=
  match s with
  | c :: _ => JNum (Z.of_N c)
  | [] => JNaN
  end.

(** [h + x] where [x] is a number or [undefined] ([None]); [undefined]
    converts to [NaN]. *)
Definition js_add (h : Z) (x : option jsnum) : jsnum :=
  match x with
  | Some (JNum d) => JNum (h + d)
  | Some JNaN | None => JNaN
  end.

(** [x || 0] on a number: the falsy numbers are [0] and [NaN]. *)
Definition or_zero (x : jsnum) : Z :=
  match x with
  | JNum z => z
  | JNaN => 0
  end.

(** [x | 0]: ToInt32, the value modulo 2^32 read as a signed 32-bit integer. *)
Definition to_int32 (z : Z) : Z := (z + 2 ^ 31) mod 2 ^ 32 - 2 ^ 31.

(** One turn of the loop of [hashChildren]:
    [hash = (hash * 31 + child.name?.charCodeAt(0) || 0) | 0],
    which JavaScript reads as [((hash * 31 + child.name?.charCodeAt(0)) || 0) | 0]. *)
Definition hash_step (hash : Z) (child : AnyNode) : Z :=
  to_int32 (or_zero (js_add (hash * 31) (charCodeAt0 <$> name child))).

Definition hashChildren (children : option (list AnyNode)) : Z :=
  match children with
  | None => 0
  | Some cs =>
      if (length cs =? 0)%nat then 0
      else foldl hash_step (Z.of_nat (length cs))
                 (take (Nat.min (length cs) 10) cs)
  end.

(** The fingerprint as the specification words it: the discriminator of a
    child is the first code unit of its tag name for a tag-type child and 0
    for any other, and each one is folded in as [(hash * 31 + d)] cut to 32
    bits. *)
Definition discriminator (child : AnyNode) : Z :=
  if isTag child then
    match name child with
    | Some (c :: _) => Z.of_N c
    | _ => 0
    end
  else 0.

Definition fingerprint_spec (children : option (list AnyNode)) : Z :=
  match children with
  | None | Some [] => 0
  | Some cs =>
      foldl (λ hash child, to_int32 (hash * 31 + discriminator child))
            (Z.of_nat (length cs)) (take 10 cs)
  end.

(** Sample nodes. *)
Definition text_node (r : positive) : AnyNode :=
  mkNode r Text None None None.
Arguments text_node r%_positive.
Definition element (r : positive) (nm : string)
    (a : gmap jsstring jsstring) (cs : list AnyNode) : AnyNode :=
  mkNode r Tag (Some (js nm)) (Some a) (Some cs).
Arguments element r%_positive nm%_string a cs.


(** ** Text cache: [textCache], a WeakMap from nodes to entries *)

Record TextCacheEntry := { text : jsstring; childrenHash : Z }.

(** [getCachedText(node)]: the value returned and the store afterwards. *)
Definition getCachedText (textCache : gmap positive TextCacheEntry)
    (node : AnyNode) : option jsstring * gmap positive TextCacheEntry :=
  match textCache !! ref node with
  | None => (None, textCache)
  | Some entry =>
      let currentHash := hashChildren (children node) in
      if negb (childrenHash entry =? currentHash)
      then (None, delete (ref node) textCache)
      else (Some (text entry), textCache)
  end.

Definition setCachedText (textCache : gmap positive TextCacheEntry)
    (node : AnyNode) (text : jsstring) : gmap positive TextCacheEntry :=
  let childrenHash := hashChildren (children node) in
  <[ref node := {| text := text; childrenHash := childrenHash |}]> textCache.

(** A call on the text cache, and a run of calls (the node passed is the
    node as it is at the time of the call). *)
Inductive text_op :=
  | OpGetText (node : AnyNode)
  | OpSetText (node : AnyNode) (text : jsstring).

Definition text_step (textCache : gmap positive TextCacheEntry)
    (op : text_op) : gmap positive TextCacheEntry :=
  match op with
  | OpGetText node => snd (getCachedText textCache node)
  | OpSetText node t => setCachedText textCache node t
  end.

Definition sets_text_of (r : positive) (op : text_op) : Prop :=
  match op with
  | OpSetText node _ => ref node = r
  | OpGetText _ => False
  end.

(** ** Selector cache: [selectorCache], a WeakMap from contexts to Maps *)

Definition getCachedSelector (selectorCache : gmap positive (gmap jsstring (list positive)))
    (context : positive) (selector : jsstring) : option (list positive) :=
  contextCache ← selectorCache !! context; contextCache !! selector.

Definition setCachedSelector (selectorCache : gmap positive (gmap jsstring (list positive)))
    (context : positive) (selector : jsstring) (results : list positive)
    : gmap positive (gmap jsstring (list positive)) :=
  let contextCache := default ∅ (selectorCache !! context) in
  <[context := <[selector := results]> contextCache]> selectorCache.

(** The body of [clearSelectorCache] is empty. *)
Definition clearSelectorCache (selectorCache : gmap positive (gmap jsstring (list positive)))
    : gmap positive (gmap jsstring (list positive)) :=
  selectorCache.

(** ** Traversal cache: [traversalCache], a WeakMap from nodes to records

    A slot is [None] when the property is missing from the record, [Some None]
    when it holds [null], [Some (Some e)] when it holds the element [e]. *)

Module TraversalEntry.
Record t := mk {
  parent : option (option positive);
  nextSibling : option (option positive);
  prevSibling : option (option positive);
  children : option (list positive)
}.
(** The object literal [{}]. *)
Definition empty : t := mk None None None None.
End TraversalEntry.

(** [let cache = traversalCache.get(node); if (!cache) { cache = {}; ... }] *)
Definition traversal_entry (traversalCache : gmap positive TraversalEntry.t)
    (node : AnyNode) : TraversalEntry.t :=
  default TraversalEntry.empty (traversalCache !! ref node).

Definition getCachedParent (traversalCache : gmap positive TraversalEntry.t)
    (node : AnyNode) : option (option positive) :=
  traversalCache !! ref node ≫= TraversalEntry.parent.

Definition setCachedParent (traversalCache : gmap positive TraversalEntry.t)
    (node : AnyNode) (parent : option positive) : gmap positive TraversalEntry.t :=
  let cache := traversal_entry traversalCache node in
  <[ref node := TraversalEntry.mk (Some parent) (TraversalEntry.nextSibling cache)
                  (TraversalEntry.prevSibling cache) (TraversalEntry.children cache)]>
    traversalCache.

Definition getCachedNextSibling (traversalCache : gmap positive TraversalEntry.t)
    (node : AnyNode) : option (option positive) :=
  traversalCache !! ref node ≫= TraversalEntry.nextSibling.

Definition setCachedNextSibling (traversalCache : gmap positive TraversalEntry.t)
    (node : AnyNode) (sibling : option positive) : gmap positive TraversalEntry.t :=
  let cache := traversal_entry traversalCache node in
  <[ref node := TraversalEntry.mk (TraversalEntry.parent cache) (Some sibling)
                  (TraversalEntry.prevSibling cache) (TraversalEntry.children cache)]>
    traversalCache.

Definition getCachedPrevSibling (traversalCache : gmap positive TraversalEntry.t)
    (node : AnyNode) : option (option positive) :=
  traversalCache !! ref node ≫= TraversalEntry.prevSibling.

Definition setCachedPrevSibling (traversalCache : gmap positive TraversalEntry.t)
    (node : AnyNode) (sibling : option positive) : gmap positive TraversalEntry.t :=
  let cache := traversal_entry traversalCache node in
  <[ref node := TraversalEntry.mk (TraversalEntry.parent cache)
                  (TraversalEntry.nextSibling cache) (Some sibling)
                  (TraversalEntry.children cache)]>
    traversalCache.

Definition getCachedChildren (traversalCache : gmap positive TraversalEntry.t)
    (node : AnyNode) : option (list positive) :=
  traversalCache !! ref node ≫= TraversalEntry.children.

Definition setCachedChildren (traversalCache : gmap positive TraversalEntry.t)
    (node : AnyNode) (children : list positive) : gmap positive TraversalEntry.t :=
  let cache := traversal_entry traversalCache node in
  <[ref node := TraversalEntry.mk (TraversalEntry.parent cache)
                  (TraversalEntry.nextSibling cache)
                  (TraversalEntry.prevSibling cache) (Some children)]>
    traversalCache.

(** The four slots and a setter call on one of them. *)
Inductive slot := SlotParent | SlotNextSibling | SlotPrevSibling | SlotChildren.

Inductive slot_value :=
  | ElementOrNull (e : option positive)
  | ElementList (es : list positive).

Inductive traversal_set :=
  | SetParent (parent : option positive)
  | SetNextSibling (sibling : option positive)
  | SetPrevSibling (sibling : option positive)
  | SetChildren (children : list positive).

Definition slot_of (call : traversal_set) : slot :=
  match call with
  | SetParent _ => SlotParent
  | SetNextSibling _ => SlotNextSibling
  | SetPrevSibling _ => SlotPrevSibling
  | SetChildren _ => SlotChildren
  end.

Definition run_set (traversalCache : gmap positive TraversalEntry.t)
    (node : AnyNode) (call : traversal_set) : gmap positive TraversalEntry.t :=
  match call with
  | SetParent p => setCachedParent traversalCache node p
  | SetNextSibling s => setCachedNextSibling traversalCache node s
  | SetPrevSibling s => setCachedPrevSibling traversalCache node s
  | SetChildren cs => setCachedChildren traversalCache node cs
  end.

(** The value a setter call stores. *)
Definition set_value (call : traversal_set) : slot_value :=
  match call with
  | SetParent p => ElementOrNull p
  | SetNextSibling s => ElementOrNull s
  | SetPrevSibling s => ElementOrNull s
  | SetChildren cs => ElementList cs
  end.

(** What the getter of a slot returns ([None]: [undefined]). *)
Definition get_slot (traversalCache : gmap positive TraversalEntry.t)
    (node : AnyNode) (s : slot) : option slot_value :=
  match s with
  | SlotParent => ElementOrNull <$> getCachedParent traversalCache node
  | SlotNextSibling => ElementOrNull <$> getCachedNextSibling traversalCache node
  | SlotPrevSibling => ElementOrNull <$> getCachedPrevSibling traversalCache node
  | SlotChildren => ElementList <$> getCachedChildren traversalCache node
  end.

(** ** Attribute cache: [attributeCache], a WeakMap from elements to Maps

    A Map value is [string | undefined]: [Some None] under a key is the key
    present with the value [undefined]. *)

Definition getCachedAttribute (attributeCache : gmap positive (gmap jsstring (option jsstring)))
    (elem : AnyNode) (name : jsstring) : option jsstring :=
  cache ← attributeCache !! ref elem; mjoin (cache !! name).

Definition hasAttributeCache (attributeCache : gmap positive (gmap jsstring (option jsstring)))
    (elem : AnyNode) (name : jsstring) : bool :=
  match attributeCache !! ref elem with
  | Some cache => bool_decide (is_Some (cache !! name))
  | None => false
  end.

Definition setCachedAttribute (attributeCache : gmap positive (gmap jsstring (option jsstring)))
    (elem : AnyNode) (name : jsstring) (value : option jsstring)
    : gmap positive (gmap jsstring (option jsstring)) :=
  let cache := default ∅ (attributeCache !! ref elem) in
  <[ref elem := <[name := value]> cache]> attributeCache.

Definition invalidateAttributeCache (attributeCache : gmap positive (gmap jsstring (option jsstring)))
    (elem : AnyNode) : gmap positive (gmap jsstring (option jsstring)) :=
  delete (ref elem) attributeCache.

(** ** Fast-path classifier: [parseSimpleSelector] *)

(** [String.prototype.trim]. *)
Fixpoint trimStart (s : jsstring) : jsstring :=
  match s with
  | c :: s' => if is_space c then trimStart s' else s
  | [] => []
  end.
Definition trimEnd (s : jsstring) : jsstring := rev (trimStart (rev s)).
Definition trim (s : jsstring) : jsstring := trimEnd (trimStart s).

(** The three patterns are of the shape [/^ a1 a2 ... $/] where an atom is a
    literal character or a character class under [+].  [regex_test r s] is
    [/^r$/.test(s)]: without the multiline flag the anchors are the two ends
    of the string. *)
Inductive regex_atom :=
  | Lit (c : code_unit)
  | PlusClass (cls : code_unit → bool).
Arguments Lit c%_N.

Fixpoint regex_test (r : list regex_atom) : jsstring → bool :=
  match r with
  | [] => λ s, match s with [] => true | _ :: _ => false end
  | Lit c :: r' =>
      λ s, match s with
           | x :: s' => (x =? c)%N && regex_test r' s'
           | [] => false
           end
  | PlusClass cls :: r' =>
      fix plus (s : jsstring) : bool :=
        match s with
        | x :: s' => cls x && (plus s' || regex_test r' s')
        | [] => false
        end
  end.

(** [/^#[\w-]+$/], [/^\.[\w-]+$/] and [/^[\w-]+$/]. *)
Definition re_id : list regex_atom := [Lit 35; PlusClass is_word_hyphen].
Definition re_class : list regex_atom := [Lit 46; PlusClass is_word_hyphen].
Definition re_tag : list regex_atom := [PlusClass is_word_hyphen].

Inductive SelectorType := TypeId | TypeClass | TypeTag | TypeComplex.

Module SimpleSelectorInfo.
Record t := mk { type : SelectorType; value : option jsstring }.
End SimpleSelectorInfo.

Definition parseSimpleSelector (selector : jsstring) : SimpleSelectorInfo.t :=
  let trimmed := trim selector in
  if regex_test re_id trimmed then
    SimpleSelectorInfo.mk TypeId (Some (drop 1 trimmed))
  else if regex_test re_class trimmed then
    SimpleSelectorInfo.mk TypeClass (Some (drop 1 trimmed))
  else if regex_test re_tag trimmed then
    SimpleSelectorInfo.mk TypeTag (Some trimmed)
  else
    SimpleSelectorInfo.mk TypeComplex None.

(** The shape the classifier asks for after [#], after [.] or alone. *)
Definition word_hyphens (v : jsstring) : Prop :=
  v ≠ [] ∧ Forall (λ c, is_word_hyphen c = true) v.

(** ** Fast-path search *)

(** What the closures [search] of [fastFindById] and [fastFindByClass] share:
    [results] and [seen].  [visited] is not program state: it lists, in order,
    the tag-type nodes the loop has examined, so that where a walk stops can
    be stated. *)
Record SearchState := {
  results : list AnyNode;
  seen : gset positive;
  visited : list AnyNode
}.

Definition search_start : SearchState :=
  {| results := []; seen := ∅; visited := [] |}.

Definition visit (node : AnyNode) (st : SearchState) : SearchState :=
  {| results := results st; seen := seen st; visited := visited st ++ [node] |}.

(** [results.push(node); seen.add(node);] *)
Definition record_match (node : AnyNode) (st : SearchState) : SearchState :=
  {| results := results st ++ [node];
     seen := {[ref node]} ∪ seen st;
     visited := visited st |}.

(** [for (const x of xs) { if (body(x)) return true; } return false;] *)
Section for_of.
Context {A S : Type}.
Variable body : A → S → bool * S.
Fixpoint for_of_until (xs : list A) (st : S) : bool * S :=
  match xs with
  | [] => (false, st)
  | x :: xs' =>
      let '(stop, st') := body x st in
      if stop then (true, st') else for_of_until xs' st'
  end.
End for_of.

(** [node.attribs?.[key]] *)
Definition attrib (node : AnyNode) (key : jsstring) : option jsstring :=
  a ← attribs node; a !! key.

(** [node.attribs?.['id'] === id] *)
Definition id_is (id : jsstring) (node : AnyNode) : bool :=
  bool_decide (attrib node (js "id") = Some id).

(** The body of the loop of [search] in [fastFindById]; [search] itself is
    [for_of_until] over it. *)
Fixpoint search_id_node (id : jsstring) (node : AnyNode) (st : SearchState)
    : bool * SearchState :=
  match node with
  | mkNode _ t _ _ ch =>
      if isTagType t then
        let st := visit node st in
        if id_is id node && negb (bool_decide (ref node ∈ seen st)) then
          (true, record_match node st)
        else
          match ch with
          | Some cs => for_of_until (search_id_node id) cs st
          | None => (false, st)
          end
      else (false, st)
  end.

Definition search_id (id : jsstring) (nodes : list AnyNode) (st : SearchState)
    : bool * SearchState :=
  for_of_until (search_id_node id) nodes st.

Definition fastFindById_run (root : list AnyNode) (id : jsstring) : SearchState :=
  snd (search_id id root search_start).

Definition fastFindById (root : list AnyNode) (id : jsstring) : list AnyNode :=
  results (fastFindById_run root id).

(** [str.split(/\s+/)]: the pieces between the maximal runs of white space.
    A run at the very start or end of the string leaves an empty piece
    before or after it, and the empty string splits into one empty piece.
    [piece] is the current piece, last character first; [in_run] says that the
    previous character was white space. *)
Fixpoint split_spaces_from (in_run : bool) (piece : jsstring) (s : jsstring)
    : list jsstring :=
  match s with
  | [] => [rev piece]
  | c :: s' =>
      if is_space c then
        if in_run then split_spaces_from true [] s'
        else rev piece :: split_spaces_from true [] s'
      else split_spaces_from false (c :: piece) s'
  end.

Definition split_spaces (s : jsstring) : list jsstring :=
  split_spaces_from false [] s.

(** [node.attribs?.['class']?.split(/\s+/) || []] *)
Definition classes (node : AnyNode) : list jsstring :=
  match attrib node (js "class") with
  | Some v => split_spaces v
  | None => []
  end.

(** [classes.includes(className)] *)
Definition has_class (className : jsstring) (node : AnyNode) : bool :=
  bool_decide (className ∈ classes node).

(** The body of the loop of [search] in [fastFindByClass]. *)
Fixpoint search_class_node (className : jsstring) (st : SearchState)
    (node : AnyNode) : SearchState :=
  match node with
  | mkNode _ t _ _ ch =>
      if isTagType t then
        let st := visit node st in
        let st :=
          if has_class className node && negb (bool_decide (ref node ∈ seen st))
          then record_match node st else st in
        match ch with
        | Some cs => foldl (search_class_node className) st cs
        | None => st
        end
      else st
  end.

Definition search_class (className : jsstring) (nodes : list AnyNode)
    (st : SearchState) : SearchState :=
  foldl (search_class_node className) st nodes.

Definition fastFindByClass (root : list AnyNode) (className : jsstring)
    : list AnyNode :=
  results (search_class className root search_start).

(** The depth-first pre-order walk of the search procedures: the tag-type
    nodes of a sequence, each followed by the walk of its children. *)
Fixpoint walk_node (node : AnyNode) : list AnyNode :=
  match node with
  | mkNode _ t _ _ ch =>
      if isTagType t then
        node :: match ch with
                | Some cs => flat_map walk_node cs
                | None => []
                end
      else []
  end.

Definition walk (nodes : list AnyNode) : list AnyNode :=
  flat_map walk_node nodes.

(** The elements of [l] up to and including the first that satisfies [p]. *)
Fixpoint take_through {A} (p : A → bool) (l : list A) : list A :=
  match l with
  | [] => []
  | x :: l' => if p x then [x] else x :: take_through p l'
  end.

(** One turn of the loop of [search] in [fastFindById] on a tag-type node,
    its children left aside. *)
Definition id_step (id : jsstring) (node : AnyNode) (st : SearchState)
    : bool * SearchState :=
  let st := visit node st in
  if id_is id node && negb (bool_decide (ref node ∈ seen st))
  then (true, record_match node st) else (false, st).

(** The same for [fastFindByClass]. *)
Definition class_step (className : jsstring) (st : SearchState) (node : AnyNode)
    : SearchState :=
  let st := visit node st in
  if has_class className node && negb (bool_decide (ref node ∈ seen st))
  then record_match node st else st.

(** Keeps the first node of each reference that is not in [refs]. *)
Fixpoint first_by_ref (refs : gset positive) (l : list AnyNode) : list AnyNode :=
  match l with
  | [] => []
  | x :: l' =>
      if bool_decide (ref x ∈ refs) then first_by_ref refs l'
      else x :: first_by_ref ({[ref x]} ∪ refs) l'
  end.

(** A sequence in which one reference stands for one node: the same object
    is not listed under two different contents. *)
Definition one_node_per_ref (l : list AnyNode) : Prop :=
  ∀ a b, a ∈ l → b ∈ l → ref a = ref b → a = b.

(** ** Wrapper object pool *)

(** A JavaScript number, as [maxSize] may be one: a finite value (every
    finite double is a rational), an infinity, or [NaN]. *)
Inductive jsnumber :=
  | Finite (q : Q)
  | PosInfinity
  | NegInfinity
  | NotANumber.

(** A natural number as a JavaScript number. *)
Definition number_of_nat (n : nat) : jsnumber := Finite (inject_Z (Z.of_nat n)).

(** [n < m] where [n] is the length of an array: false when [m] is [NaN]. *)
Definition length_lt (n : nat) (m : jsnumber) : bool :=
  match m with
  | Finite q => negb (Qle_bool q (inject_Z (Z.of_nat n)))
  | PosInfinity => true
  | NegInfinity | NotANumber => false
  end.

(** [n <= m] likewise. *)
Definition length_le (n : nat) (m : jsnumber) : bool :=
  match m with
  | Finite q => Qle_bool (inject_Z (Z.of_nat n)) q
  | PosInfinity => true
  | NegInfinity | NotANumber => false
  end.

(** The least natural number that is not below [m]: the length at which
    [length < m] first fails.  There is none for [+Infinity]. *)
Definition capacity (m : jsnumber) : option nat :=
  match m with
  | Finite q => Some (Z.to_nat (Qceiling q))
  | PosInfinity => None
  | NegInfinity | NotANumber => Some 0%nat
  end.

Module WrapperPool.
Section pool.
(** The instance type [T] of the pool is any JavaScript type; [truthy]
    says which of its values are truthy (every object is).  The factory is
    a thunk with effects of its own: [factory k] is the instance its call
    number [k] constructs. *)
Context {T : Type}.
Variable truthy : T → bool.
Variable factory : nat → T.

(** The object's fields [pool] and [maxSize], a number; [calls] is not a
    field: it counts the invocations of the factory so far. *)
Record t := mk { pool : list T; maxSize : jsnumber; calls : nat }.

(** [new WrapperPool(factory, maxSize)] *)
Definition new (maxSize : jsnumber) : t := mk [] maxSize 0.

(** [Array.prototype.pop]: the last element ([undefined] if there is
    none) and the array without it. *)
Definition pop (l : list T) : option T * list T := (last l, removelast l).

(** [return this.pool.pop() || this.factory();] *)
Definition acquire (p : t) : T * t :=
  let '(top, rest) := pop (pool p) in
  match top with
  | Some obj =>
      if truthy obj then (obj, mk rest (maxSize p) (calls p))
      else (factory (calls p), mk rest (maxSize p) (S (calls p)))
  | None => (factory (calls p), mk rest (maxSize p) (S (calls p)))
  end.

(** [if (this.pool.length < this.maxSize) this.pool.push(obj);] *)
Definition release (p : t) (obj : T) : t :=
  if length_lt (length (pool p)) (maxSize p)
  then mk (pool p ++ [obj]) (maxSize p) (calls p)
  else p.

(** [this.pool = [];] *)
Definition clear (p : t) : t := mk [] (maxSize p) (calls p).

(** The three methods [createWrapperPool] hands out, and a run of calls
    on them. *)
Inductive op := Acquire | Release (obj : T) | Clear.

Definition step (p : t) (o : op) : t :=
  match o with
  | Acquire => snd (acquire p)
  | Release obj => release p obj
  | Clear => clear p
  end.

Definition run (p : t) (ops : list op) : t := foldl step p ops.
End pool.

(** [createWrapperPool(factory, maxSize = 50)] *)
Definition createWrapperPool {T} (maxSize : option jsnumber) : t (T:=T) :=
  new (default (number_of_nat 50) maxSize).
End WrapperPool.

(** The acquire part of C3 as it is stated: whenever the pool is not empty,
    [acquire] returns an instance of the pool and does not invoke the
    factory. *)
Definition acquire_reuses_pooled {T} (truthy : T → bool) (factory : nat → T)
    (p : WrapperPool.t) : Prop :=
  WrapperPool.pool p ≠ [] →
  fst (WrapperPool.acquire truthy factory p) ∈ WrapperPool.pool p
  ∧ WrapperPool.calls (snd (WrapperPool.acquire truthy factory p)) = WrapperPool.calls p.

(** The bound of C3 as it is stated: the pool holds no more than [maxSize]
    instances. *)
Definition within_maxSize {T} (p : WrapperPool.t (T:=T)) : Prop :=
  length_le (length (WrapperPool.pool p)) (WrapperPool.maxSize p) = true.

(** A pool of numbers, of which 0 is falsy, with a factory that numbers its
    instances from 100; its [maxSize] is 2. *)
Definition number_pool (ops : list (WrapperPool.op (T:=Z))) : WrapperPool.t :=
  WrapperPool.run (λ z, negb (z =? 0)) (λ k, 100 + Z.of_nat k)
    (WrapperPool.createWrapperPool (Some (number_of_nat 2))) ops.

(** The same with [maxSize] 1.5. *)
Definition fractional_pool (ops : list (WrapperPool.op (T:=Z))) : WrapperPool.t :=
  WrapperPool.run (λ z, negb (z =? 0)) (λ k, 100 + Z.of_nat k)
    (WrapperPool.createWrapperPool (Some (Finite (3 # 2)))) ops.

(** Sample trees. *)
Definition attrs (kvs : list (string * string)) : gmap jsstring jsstring :=
  list_to_map (map (λ kv, (js (fst kv), js (snd kv))) kvs).

Definition el (r : positive) (nm : string) (kvs : list (string * string))
    (cs : list AnyNode) : AnyNode :=
  mkNode r Tag (Some (js nm)) (Some (attrs kvs)) (Some cs).
Arguments el r%_positive nm%_string kvs cs.

Local Open Scope string_scope.

(** A list whose first and second items share the id [x] and the class
    [item]; the class attribute of the third starts with a space. *)
Definition li_first : AnyNode :=
  el 2 "li" [("class", "item featured"); ("id", "x")] [text_node 3].
Definition li_second : AnyNode := el 5 "li" [("class", "item"); ("id", "x")] [].
Definition li_other : AnyNode := el 6 "li" [("class", " other")] [].
Definition ul : AnyNode := el 1 "ul" [] [li_first; text_node 4; li_second; li_other].
Definition doc1 : list AnyNode := [ul].

(** A paragraph holding one text node, and the same paragraph after a second
    text node was appended. *)
Definition para : AnyNode := el 10 "p" [] [text_node 11].
Definition para_grown : AnyNode := el 10 "p" [] [text_node 11; text_node 12].

(** A section with two element children, and the same section after a third
    was appended. *)
Definition sect : AnyNode := el 20 "section" [] [el 21 "h1" [] []; el 22 "p" [] []].
Definition sect_grown : AnyNode :=
  el 20 "section" [] [el 21 "h1" [] []; el 22 "p" [] []; el 23 "p" [] []].

Local Close Scope string_scope.

(** ** Further definitions: [fastFindByTag], runs of setter calls, samples *)

(** [for (const x of xs) { body(x) }] where the body may throw ([None]). *)
Section for_of_try.
Context {A S : Type}.
Variable body : S → A → option S.
Fixpoint for_of_try (st : S) (xs : list A) : option S :=
  match xs with
  | [] => Some st
  | x :: xs' =>
      match body st x with
      | Some st' => for_of_try st' xs'
      | None => None
      end
  end.
End for_of_try.

Section fastFindByTag.
(** [String.prototype.toLowerCase]: the case tables are the language's, not
    the module's, and are taken as given. *)
Variable toLowerCase : jsstring → jsstring.

(** [node.name.toLowerCase() === lowerTag]; reading [toLowerCase] off a
    missing name throws a TypeError ([None]). *)
Definition name_is (lowerTag : jsstring) (node : AnyNode) : option bool :=
  nm ← name node; Some (bool_decide (toLowerCase nm = lowerTag)).

(** The body of the loop of [search] in [fastFindByTag]. *)
Fixpoint search_tag_node (lowerTag : jsstring) (st : SearchState)
    (node : AnyNode) : option SearchState :=
  match node with
  | mkNode _ t _ _ ch =>
      if isTagType t then
        let st := visit node st in
        match name_is lowerTag node with
        | None => None
        | Some same =>
            let st :=
              if same && negb (bool_decide (ref node ∈ seen st))
              then record_match node st else st in
            match ch with
            | Some cs => for_of_try (search_tag_node lowerTag) st cs
            | None => Some st
            end
        end
      else Some st
  end.

(** The result, or [None] when the search throws. *)
Definition fastFindByTag (root : list AnyNode) (tagName : jsstring)
    : option (list AnyNode) :=
  let lowerTag := toLowerCase tagName in
  results <$> for_of_try (search_tag_node lowerTag) search_start root.

(** One turn of that loop on a tag-type node, its children left aside. *)
Definition tag_step (lowerTag : jsstring) (st : SearchState) (node : AnyNode)
    : option SearchState :=
  let st := visit node st in
  same ← name_is lowerTag node;
  Some (if same && negb (bool_decide (ref node ∈ seen st))
        then record_match node st else st).

(** The nodes whose lowered name is [lowerTag]. *)
Definition name_matches (lowerTag : jsstring) (node : AnyNode) : bool :=
  default false (name_is lowerTag node).
End fastFindByTag.

(** [toLowerCase] on strings of ASCII characters, for the examples. *)
Definition ascii_toLowerCase (s : jsstring) : jsstring :=
  map (λ c, if (65 <=? c)%N && (c <=? 90)%N then (c + 32)%N else c) s.

(** A run of setter calls on the traversal cache, each with its node. *)
Definition run_sets (traversalCache : gmap positive TraversalEntry.t)
    (calls : list (AnyNode * traversal_set)) : gmap positive TraversalEntry.t :=
  foldl (λ tc c, run_set tc (fst c) (snd c)) traversalCache calls.

Definition slot_eqb (s1 s2 : slot) : bool :=
  match s1, s2 with
  | SlotParent, SlotParent | SlotNextSibling, SlotNextSibling
  | SlotPrevSibling, SlotPrevSibling | SlotChildren, SlotChildren => true
  | _, _ => false
  end.

(** Whether a call writes slot [s] of the node [n]. *)
Definition writes_slot (n : AnyNode) (s : slot) (c : AnyNode * traversal_set) : bool :=
  bool_decide (ref (fst c) = ref n) && slot_eqb (slot_of (snd c)) s.

(** The last call of a run that writes slot [s] of [n], if there is one. *)
Fixpoint last_write (n : AnyNode) (s : slot) (calls : list (AnyNode * traversal_set))
    : option traversal_set :=
  match calls with
  | [] => None
  | c :: calls' =>
      match last_write n s calls' with
      | Some call => Some call
      | None => if writes_slot n s c then Some (snd c) else None
      end
  end.

(** What [hashChildren] reads of a child: [child.name?.charCodeAt(0)]. *)
Definition name_code (child : AnyNode) : option jsnum := charCodeAt0 <$> name child.

(** Sample nodes for the further properties. *)
Local Open Scope string_scope.

(** A document node over [ul], and a comment. *)
Definition document : AnyNode := mkNode 30 Root None None (Some [ul]).
Definition comment : AnyNode := mkNode 31 Comment None None None.

(** A tag-type node that lacks a name. *)
Definition nameless : AnyNode := mkNode 40 Tag None (Some ∅) (Some []).

(** Eleven list items, and the same with the eleventh replaced by another
    element. *)
Definition items10 : list AnyNode :=
  map (λ k, el (Pos.of_nat (100 + k)) "li" [] []) (seq 0 10).
Definition eleven : AnyNode := el 50 "ol" [] (items10 ++ [el 110 "li" [] []])%list.
Definition eleven_changed : AnyNode :=
  el 50 "ol" [] (items10 ++ [el 111 "table" [("class", "new")] [text_node 112]])%list.

(** The section [sect] with one child replaced by an element whose name
    starts with the same letter. *)
Definition sect_renamed : AnyNode :=
  el 20 "section" [] [el 21 "h1" [] []; el 24 "pre" [("id", "x")] [text_node 25]].

(** Elements named in mixed case. *)
Definition upper_div : AnyNode := el 60 "DIV" [] [el 61 "span" [] []; el 62 "Div" [] []].

Local Close Scope string_scope.

(** The first code unit of a child's name, 0 without one. *)
Definition name_first_code (child : AnyNode) : Z :=
  match name child with
  | Some (c :: _) => Z.of_N c
  | _ => 0
  end.

(** Whether a pool call is [acquire]. *)
Definition is_acquire {T} (o : WrapperPool.op (T:=T)) : bool :=
  match o with
  | WrapperPool.Acquire => true
  | _ => false
  end.

(** What [parseSimpleSelector] tells about the trimmed selector [t]: the
    shape that goes with each type, and no value exactly for [complex]. *)
Definition selector_shape (t : jsstring) (info : SimpleSelectorInfo.t) : Prop :=
  match SimpleSelectorInfo.type info, SimpleSelectorInfo.value info with
  | TypeId, Some v => t = 35%N :: v ∧ word_hyphens v
  | TypeClass, Some v => t = 46%N :: v ∧ word_hyphens v
  | TypeTag, Some v => t = v ∧ word_hyphens v
  | TypeComplex, None =>
      ¬ word_hyphens t ∧ ∀ v, word_hyphens v → t ≠ 35%N :: v ∧ t ≠ 46%N :: v
  | _, _ => False
  end.

(** [p] stands in [v] between white space or the ends of [v]. *)
Definition ends_at_space (before : jsstring) : Prop :=
  before = [] ∨ ∃ before' c, before = before' ++ [c] ∧ is_space c = true.
Definition starts_at_space (after : jsstring) : Prop :=
  after = [] ∨ ∃ c after', after = c :: after' ∧ is_space c = true.
Definition delimited (p v : jsstring) : Prop :=
  ∃ before after,
    v = before ++ p ++ after ∧ ends_at_space before ∧ starts_at_space after.

(** * Properties *)

(** ** The children fingerprint *)

Lemma take_min_length {A} (l : list A) k : take (Nat.min (length l) k) l = take k l.
Proof.
  destruct (Nat.le_ge_cases (length l) k) as [H|H].
  - rewrite Nat.min_l by done. by rewrite !take_ge by lia.
  - by rewrite Nat.min_r.
Qed.

Lemma foldl_ext_Forall {A B} (f g : A → B → A) (l : list B) (P : B → Prop) a :
  Forall P l → (∀ a x, P x → f a x = g a x) → foldl f a l = foldl g a l.
Proof.
  intros Hl Hfg. revert a. induction Hl as [|x l Hx _ IH]; intros a; simpl; [done|].
  by rewrite Hfg, IH.
Qed.

(** A child without a [name], or with the empty name, sets the running hash
    to 0 whatever it was. *)
Lemma hash_step_nameless hash child :
  name child = None ∨ name child = Some [] → hash_step hash child = 0.
Proof. unfold hash_step. by intros [-> | ->]. Qed.

(** A child with a non-empty [name] folds the first code unit of the name in. *)
Lemma hash_step_named hash child c s :
  name child = Some (c :: s) → hash_step hash child = to_int32 (hash * 31 + Z.of_N c).
Proof. unfold hash_step. by intros ->. Qed.

(** On tag-type children with non-empty names the function computes the
    fingerprint of the specification. *)
Lemma hashChildren_named_elements (cs : list AnyNode) :
  Forall (λ child, isTag child = true ∧ ∃ c s, name child = Some (c :: s)) (take 10 cs) →
  hashChildren (Some cs) = fingerprint_spec (Some cs).
Proof.
  intros Hcs. unfold hashChildren, fingerprint_spec.
  rewrite take_min_length.
  destruct cs as [|c0 cs]; [done|].
  change (length (c0 :: cs) =? 0)%nat with false. cbv iota.
  apply (foldl_ext_Forall _ _ _ _ _ Hcs).
  intros a x [Htag (c & s & Hname)].
  rewrite (hash_step_named _ _ _ _ Hname). unfold discriminator.
  by rewrite Htag, Hname.
Qed.

(** With the count unchanged, the children after the tenth do not matter. *)
Lemma hashChildren_bounded_scan (cs cs' : list AnyNode) :
  length cs = length cs' → take 10 cs = take 10 cs' →
  hashChildren (Some cs) = hashChildren (Some cs').
Proof.
  intros Hlen Htake. unfold hashChildren.
  by rewrite !take_min_length, Hlen, Htake.
Qed.

Lemma hashChildren_absent_or_empty : hashChildren None = 0 ∧ hashChildren (Some []) = 0.
Proof. done. Qed.

(** C1: the children fingerprint is a 32-bit hash seeded with the child count
    into which each of the first ten children is folded as [hash * 31 + d],
    with [d = 0] for a child that is not an element.  The function does not
    compute it: a child without a name turns [hash * 31 + undefined] into
    [NaN], and [NaN || 0] sets the hash to 0.  On a single text child it
    returns 0 where the fingerprint described is [1 * 31 + 0 = 31]; on two
    text children 0 again, not [(2 * 31) * 31 = 1922]; on a text child
    followed by a [p] element 112, not 2034. *)
Theorem hashChildren_text_child_resets_hash :
  hashChildren (children para) = 0
  ∧ fingerprint_spec (children para) = 31
  ∧ hashChildren (children para_grown) = 0
  ∧ fingerprint_spec (children para_grown) = 1922
  ∧ hashChildren (Some [text_node 1; el 2 "p" [] []]) = 112
  ∧ fingerprint_spec (Some [text_node 1; el 2 "p" [] []]) = 2034.
Proof. by vm_compute. Qed.

(** ** The text cache *)

Lemma getCachedText_miss (textCache : gmap positive TextCacheEntry) node :
  textCache !! ref node = None → getCachedText textCache node = (None, textCache).
Proof. unfold getCachedText. by intros ->. Qed.

Lemma getCachedText_hit (textCache : gmap positive TextCacheEntry) node entry :
  textCache !! ref node = Some entry →
  childrenHash entry = hashChildren (children node) →
  getCachedText textCache node = (Some (text entry), textCache).
Proof.
  unfold getCachedText. intros -> ->. by rewrite Z.eqb_refl.
Qed.

Lemma getCachedText_stale (textCache : gmap positive TextCacheEntry) node entry :
  textCache !! ref node = Some entry →
  childrenHash entry ≠ hashChildren (children node) →
  getCachedText textCache node = (None, delete (ref node) textCache).
Proof.
  unfold getCachedText. intros -> Hne.
  apply Z.eqb_neq in Hne. by rewrite Hne.
Qed.

(** A call that is not [setCachedText] on [r] leaves [r] without an entry. *)
Lemma text_step_keeps_absent (textCache : gmap positive TextCacheEntry) r op :
  textCache !! r = None → ¬ sets_text_of r op → text_step textCache op !! r = None.
Proof.
  intros Hr Hop. destruct op as [node|node t]; simpl in *.
  - unfold getCachedText. destruct (textCache !! ref node) as [entry|]; [|done].
    destruct (negb _); simpl; [|done].
    destruct (decide (ref node = r)) as [->|Hne].
    + apply lookup_delete_eq.
    + by rewrite lookup_delete_ne.
  - unfold setCachedText. by rewrite lookup_insert_ne.
Qed.

Lemma text_run_keeps_absent (textCache : gmap positive TextCacheEntry) r ops :
  textCache !! r = None → Forall (λ op, ¬ sets_text_of r op) ops →
  foldl text_step textCache ops !! r = None.
Proof.
  intros Hr Hops. revert textCache Hr.
  induction Hops as [|op ops Hop _ IH]; intros textCache Hr; simpl; [done|].
  apply IH. by apply text_step_keeps_absent.
Qed.

(** C2: right after [setCachedText(n, t)], [getCachedText] on the node returns
    [t] if the node's fingerprint is the one just stored (and keeps the
    entry); and when [getCachedText(n)] finds an entry whose fingerprint is
    not the node's current one, it returns nothing and deletes the entry, so
    that, after any calls other than [setCachedText] on [n], [getCachedText]
    on [n] still returns nothing, whatever its children are by then. *)
Theorem text_cache_self_healing :
  (∀ (textCache : gmap positive TextCacheEntry) n n' t,
     ref n' = ref n →
     hashChildren (children n') = hashChildren (children n) →
     getCachedText (setCachedText textCache n t) n'
     = (Some t, setCachedText textCache n t))
  ∧ (∀ (textCache : gmap positive TextCacheEntry) n entry,
       textCache !! ref n = Some entry →
       childrenHash entry ≠ hashChildren (children n) →
       getCachedText textCache n = (None, delete (ref n) textCache)
       ∧ ∀ ops n',
           Forall (λ op, ¬ sets_text_of (ref n) op) ops →
           ref n' = ref n →
           fst (getCachedText (foldl text_step (delete (ref n) textCache) ops) n')
           = None).
Proof.
  split.
  - intros textCache n n' t Href Hhash.
    apply (getCachedText_hit _ _ {| text := t; childrenHash := hashChildren (children n) |}).
    + unfold setCachedText. rewrite Href. apply lookup_insert_eq.
    + by rewrite Hhash.
  - intros textCache n entry Hentry Hne. split.
    + by apply (getCachedText_stale _ _ entry).
    + intros ops n' Hops Href.
      rewrite getCachedText_miss; [done|]. rewrite Href.
      apply text_run_keeps_absent; [apply lookup_delete_eq | done].
Qed.

(** The scenario of the specification: a section with children [h1; p] is
    cached, read back, and read again after a third child was appended. *)
Lemma text_cache_self_healing_witness :
  let X := js "X" in
  let cached := setCachedText ∅ sect X in
  getCachedText cached sect = (Some X, cached)
  ∧ getCachedText cached sect_grown = (None, delete (ref sect_grown) cached)
  ∧ fst (getCachedText
           (foldl text_step (delete (ref sect_grown) cached)
              [OpGetText sect_grown; OpSetText para X; OpGetText sect])
           sect) = None.
Proof.
  intros X cached.
  destruct text_cache_self_healing as [Hhit Hstale]. split.
  - apply (Hhit ∅ sect sect X); reflexivity.
  - destruct (Hstale cached sect_grown
                {| text := X; childrenHash := hashChildren (children sect) |})
      as [Hget Hlater].
    + reflexivity.
    + vm_compute. lia.
    + split; [exact Hget|].
      apply Hlater; [|reflexivity].
      repeat constructor; vm_compute; lia.
Defined.

(** What the reset of the hash costs: a paragraph holding one text node is
    cached, a second text node is appended, and the text cached for the old
    content is still returned. *)
Lemma text_cache_keeps_text_after_append :
  let X := js "X" in
  fst (getCachedText (setCachedText ∅ para X) para_grown) = Some X.
Proof. reflexivity. Qed.

(** ** The selector cache *)

Lemma getCachedSelector_set (selectorCache : gmap positive (gmap jsstring (list positive)))
    context selector res :
  getCachedSelector (setCachedSelector selectorCache context selector res) context selector
  = Some res.
Proof.
  unfold getCachedSelector, setCachedSelector.
  rewrite lookup_insert_eq. simpl. apply lookup_insert_eq.
Qed.

(** C9: [clearSelectorCache] changes nothing that [getCachedSelector] can
    see: the store after the call is the store before it, and every lookup
    returns what it returned before. *)
Theorem clearSelectorCache_is_noop
    (selectorCache : gmap positive (gmap jsstring (list positive))) :
  clearSelectorCache selectorCache = selectorCache
  ∧ ∀ context selector,
      getCachedSelector (clearSelectorCache selectorCache) context selector
      = getCachedSelector selectorCache context selector.
Proof. done. Qed.

(** ** The attribute cache *)

(** C7: after [setCachedAttribute(n, a, v)], [getCachedAttribute(n, a)] is [v],
    also when [v] is [undefined], and [hasAttributeCache(n, a)] is true; an
    attribute cached as [undefined] and one that was never cached both read as
    [undefined], and [hasAttributeCache] tells them apart. *)
Theorem attribute_cache_set_then_get
    (attributeCache : gmap positive (gmap jsstring (option jsstring))) n a v :
  getCachedAttribute (setCachedAttribute attributeCache n a v) n a = v
  ∧ hasAttributeCache (setCachedAttribute attributeCache n a v) n a = true
  ∧ (getCachedAttribute (setCachedAttribute attributeCache n a None) n a = None
     ∧ hasAttributeCache (setCachedAttribute attributeCache n a None) n a = true)
  ∧ (getCachedAttribute (invalidateAttributeCache attributeCache n) n a = None
     ∧ hasAttributeCache (invalidateAttributeCache attributeCache n) n a = false).
Proof.
  unfold getCachedAttribute, hasAttributeCache, setCachedAttribute,
    invalidateAttributeCache.
  rewrite !lookup_insert_eq, lookup_delete_eq. simpl.
  rewrite !lookup_insert_eq. simpl.
  repeat split; apply bool_decide_eq_true; eauto.
Qed.

(** ** The traversal cache *)

Lemma get_slot_other_node (tc tc' : gmap positive TraversalEntry.t) m s :
  tc' !! ref m = tc !! ref m → get_slot tc' m s = get_slot tc m s.
Proof.
  intros H. destruct s; simpl;
    unfold getCachedParent, getCachedNextSibling, getCachedPrevSibling,
      getCachedChildren; by rewrite H.
Qed.

Lemma run_set_other_node (tc : gmap positive TraversalEntry.t) n m call :
  ref m ≠ ref n → run_set tc n call !! ref m = tc !! ref m.
Proof.
  intros Hne. destruct call; simpl;
    unfold setCachedParent, setCachedNextSibling, setCachedPrevSibling,
      setCachedChildren; by rewrite lookup_insert_ne.
Qed.

(** C8: a setter of the traversal cache called on node [n] stores its argument
    in its own slot of [n] and leaves the other three slots of [n] as they
    were (missing, [null] or a value); the entry of any other node, and so
    each of its four slots, is unchanged. *)
Theorem traversal_setter_frame (tc : gmap positive TraversalEntry.t) n call :
  get_slot (run_set tc n call) n (slot_of call) = Some (set_value call)
  ∧ (∀ s, s ≠ slot_of call → get_slot (run_set tc n call) n s = get_slot tc n s)
  ∧ (∀ m, ref m ≠ ref n →
       run_set tc n call !! ref m = tc !! ref m
       ∧ ∀ s, get_slot (run_set tc n call) m s = get_slot tc m s).
Proof.
  split; [|split].
  - destruct call; simpl;
      unfold getCachedParent, getCachedNextSibling, getCachedPrevSibling,
        getCachedChildren, setCachedParent, setCachedNextSibling,
        setCachedPrevSibling, setCachedChildren;
      by rewrite lookup_insert_eq.
  - intros s Hs.
    destruct call, s; try done; simpl;
      unfold getCachedParent, getCachedNextSibling, getCachedPrevSibling,
        getCachedChildren, setCachedParent, setCachedNextSibling,
        setCachedPrevSibling, setCachedChildren, traversal_entry;
      rewrite lookup_insert_eq; by destruct (tc !! ref n).
  - intros m Hne. pose proof (run_set_other_node tc n m call Hne) as H.
    split; [done|]. intros s. by apply get_slot_other_node.
Qed.

(** A node whose parent is cached as [null] has its next sibling set: the
    parent slot still reads [null], the two slots never set still read as
    missing, and the entry of another node is as before. *)
Lemma traversal_setter_frame_witness :
  let n := text_node 4 in
  let m := text_node 3 in
  let tc := setCachedParent (setCachedChildren ∅ m [7%positive]) n None in
  let tc' := run_set tc n (SetNextSibling (Some 5%positive)) in
  get_slot tc' n SlotNextSibling = Some (ElementOrNull (Some 5%positive))
  ∧ get_slot tc' n SlotParent = Some (ElementOrNull None)
  ∧ get_slot tc' n SlotPrevSibling = None
  ∧ get_slot tc' n SlotChildren = None
  ∧ tc' !! ref m = tc !! ref m
  ∧ get_slot tc' m SlotChildren = Some (ElementList [7%positive]).
Proof.
  intros n m tc tc'.
  destruct (traversal_setter_frame tc n (SetNextSibling (Some 5%positive)))
    as (Hset & Hslots & Hnodes).
  destruct (Hnodes m) as [Hentry Hm]; [vm_compute; lia|].
  unfold tc'. split; [exact Hset|].
  split; [by rewrite (Hslots SlotParent)|].
  split; [by rewrite (Hslots SlotPrevSibling)|].
  split; [by rewrite (Hslots SlotChildren)|].
  split; [exact Hentry | by rewrite (Hm SlotChildren)].
Defined.

(** ** The fast-path classifier *)

(** [trim] removes white space at both ends and nothing else. *)
Lemma trimStart_split (s : jsstring) :
  ∃ a, s = a ++ trimStart s
       ∧ Forall (λ c, is_space c = true) a
       ∧ ∀ c, head (trimStart s) = Some c → is_space c = false.
Proof.
  induction s as [|x s (a & Hs & Ha & Hhead)]; simpl.
  - by exists [].
  - destruct (is_space x) eqn:Hx.
    + exists (x :: a). split; [by rewrite Hs at 1|]. split; [by constructor | done].
    + exists []. split; [done|]. split; [constructor|]. simpl. by intros c [= <-].
Qed.

Lemma last_rev_head {A} (l : list A) : last (rev l) = head l.
Proof. destruct l as [|x l]; simpl; [done | apply last_snoc]. Qed.

Lemma trim_split (s : jsstring) :
  ∃ a b, s = a ++ trim s ++ b
         ∧ Forall (λ c, is_space c = true) a
         ∧ Forall (λ c, is_space c = true) b
         ∧ (∀ c, head (trim s) = Some c → is_space c = false)
         ∧ (∀ c, last (trim s) = Some c → is_space c = false).
Proof.
  destruct (trimStart_split s) as (a & Hs & Ha & Hhead).
  destruct (trimStart_split (rev (trimStart s))) as (b & Hu & Hb & Hlast).
  exists a, (rev b). unfold trim, trimEnd.
  set (u := trimStart s) in *. set (w := trimStart (rev u)) in *.
  assert (u = rev w ++ rev b) as Hu'.
  { by rewrite <- rev_app_distr, <- Hu, rev_involutive. }
  split; [by rewrite <- Hu'|]. split; [done|].
  split; [by apply Forall_rev|]. split.
  - intros c Hc. apply Hhead. rewrite Hu'. by destruct (rev w).
  - intros c Hc. apply Hlast. by rewrite <- last_rev_head.
Qed.

Lemma regex_test_end (s : jsstring) : regex_test [] s = true ↔ s = [].
Proof. by destruct s. Qed.

Lemma regex_test_plus_cons cls r x (s : jsstring) :
  regex_test (PlusClass cls :: r) (x :: s)
  = cls x && (regex_test (PlusClass cls :: r) s || regex_test r s).
Proof. reflexivity. Qed.

Lemma regex_test_plus_class cls (s : jsstring) :
  regex_test [PlusClass cls] s = true ↔ s ≠ [] ∧ Forall (λ c, cls c = true) s.
Proof.
  induction s as [|x s IH].
  - split; [done|]. by intros [? _].
  - rewrite regex_test_plus_cons.
    rewrite andb_true_iff, orb_true_iff, IH, regex_test_end, Forall_cons.
    split.
    + intros [Hx [[_ Hs] | ->]]; by repeat split.
    + intros [_ [Hx Hs]]. split; [done|].
      destruct s; [by right | left; by split].
Qed.

Lemma regex_test_lit c r x (s : jsstring) :
  regex_test (Lit c :: r) (x :: s) = true ↔ x = c ∧ regex_test r s = true.
Proof. simpl. by rewrite andb_true_iff, N.eqb_eq. Qed.

Lemma regex_test_lit_plus c cls (t : jsstring) :
  regex_test [Lit c; PlusClass cls] t = true
  ↔ ∃ v, t = c :: v ∧ v ≠ [] ∧ Forall (λ c, cls c = true) v.
Proof.
  destruct t as [|x s].
  - split; [done|]. by intros (? & ? & _).
  - rewrite regex_test_lit, regex_test_plus_class. split.
    + intros [-> H]. by exists s.
    + intros (v & [= -> ->] & H). done.
Qed.

Lemma word_hyphens_head c (v : jsstring) :
  word_hyphens (c :: v) → is_word_hyphen c = true.
Proof. intros [_ H]. by inversion H. Qed.

(** C6: [parseSimpleSelector] classifies the trimmed selector [t].  If [t] is
    [#] followed by one or more word or hyphen characters [v], the result is
    [{type: id, value: v}]; if it is [.] followed by such a [v], the result is
    [{type: class, value: v}]; if [t] itself is one or more word or hyphen
    characters, the result is [{type: tag, value: t}]; in every other case it
    is [{type: complex}] without a value.  The three shapes exclude one
    another, so the first that applies is the only one. *)
Theorem parseSimpleSelector_classification (selector : jsstring) :
  let t := trim selector in
  (∀ v, t = 35%N :: v → word_hyphens v →
     parseSimpleSelector selector = SimpleSelectorInfo.mk TypeId (Some v))
  ∧ (∀ v, t = 46%N :: v → word_hyphens v →
       parseSimpleSelector selector = SimpleSelectorInfo.mk TypeClass (Some v))
  ∧ (word_hyphens t →
       parseSimpleSelector selector = SimpleSelectorInfo.mk TypeTag (Some t))
  ∧ ((∀ v, t = 35%N :: v → ¬ word_hyphens v) →
     (∀ v, t = 46%N :: v → ¬ word_hyphens v) →
     ¬ word_hyphens t →
     parseSimpleSelector selector = SimpleSelectorInfo.mk TypeComplex None).
Proof.
  intros t. unfold parseSimpleSelector. fold t.
  repeat split.
  - intros v Ht [Hne Hv].
    assert (regex_test re_id t = true) as ->; [|by rewrite Ht].
    apply regex_test_lit_plus. by exists v.
  - intros v Ht [Hne Hv].
    assert (regex_test re_id t = false) as ->; [by rewrite Ht|].
    assert (regex_test re_class t = true) as ->; [|by rewrite Ht].
    apply regex_test_lit_plus. by exists v.
  - intros Ht.
    assert (regex_test re_id t = false) as ->.
    { destruct t as [|c v]; [done|]. apply word_hyphens_head in Ht.
      simpl. destruct (N.eqb_spec c 35) as [->|]; [done|done]. }
    assert (regex_test re_class t = false) as ->.
    { destruct t as [|c v]; [done|]. apply word_hyphens_head in Ht.
      simpl. destruct (N.eqb_spec c 46) as [->|]; [done|done]. }
    assert (regex_test re_tag t = true) as ->; [|done].
    by apply regex_test_plus_class.
  - intros Hid Hclass Htag.
    assert (regex_test re_id t = false) as ->.
    { apply not_true_is_false. intros (v & Ht & Hv)%regex_test_lit_plus.
      by apply (Hid v). }
    assert (regex_test re_class t = false) as ->.
    { apply not_true_is_false. intros (v & Ht & Hv)%regex_test_lit_plus.
      by apply (Hclass v). }
    assert (regex_test re_tag t = false) as ->; [|done].
    apply not_true_is_false. by intros ?%regex_test_plus_class.
Qed.

(** The four selectors of the specification's example, the second one with
    blanks around it. *)
Lemma parseSimpleSelector_classification_witness :
  parseSimpleSelector (js "#nav") = SimpleSelectorInfo.mk TypeId (Some (js "nav"))
  ∧ parseSimpleSelector (js " .item ") = SimpleSelectorInfo.mk TypeClass (Some (js "item"))
  ∧ parseSimpleSelector (js "div") = SimpleSelectorInfo.mk TypeTag (Some (js "div"))
  ∧ parseSimpleSelector (js "div.item > span") = SimpleSelectorInfo.mk TypeComplex None.
Proof.
  split; [|split; [|split]].
  - apply (parseSimpleSelector_classification (js "#nav")).
    + reflexivity.
    + split; [done | by repeat constructor].
  - apply (parseSimpleSelector_classification (js " .item ")).
    + reflexivity.
    + split; [done | by repeat constructor].
  - apply (parseSimpleSelector_classification (js "div")).
    split; [done | by repeat constructor].
  - apply (parseSimpleSelector_classification (js "div.item > span")).
    + intros v [=].
    + intros v [=].
    + intros [_ H]. vm_compute in H.
      do 3 (apply Forall_cons in H as [_ H]). by apply Forall_cons in H as [? _].
Defined.

(** ** The fast-path searches *)

Lemma walk_cons n l : walk (n :: l) = walk_node n ++ walk l.
Proof. reflexivity. Qed.

Lemma walk_node_not_tag r t nm a ch :
  isTagType t = false → walk_node (mkNode r t nm a ch) = [].
Proof. simpl. by intros ->. Qed.

Lemma walk_node_tag r t nm a ch :
  isTagType t = true →
  walk_node (mkNode r t nm a ch)
  = mkNode r t nm a ch :: match ch with Some cs => walk cs | None => [] end.
Proof. simpl. by intros ->. Qed.

(** The walk holds tag-type nodes only. *)
Lemma walk_node_isTag n : Forall (λ m, isTag m = true) (walk_node n).
Proof.
  induction n as [r t nm a ch IH] using AnyNode_nested_ind.
  destruct (isTagType t) eqn:Ht.
  - rewrite walk_node_tag by done. constructor; [done|].
    destruct ch as [cs|]; [|constructor].
    induction IH as [|c cs Hc _ IHcs]; [constructor|].
    rewrite walk_cons. by apply Forall_app.
  - rewrite walk_node_not_tag by done. constructor.
Qed.

Lemma walk_isTag root : Forall (λ m, isTag m = true) (walk root).
Proof.
  induction root as [|n root IH]; [constructor|].
  rewrite walk_cons. apply Forall_app. split; [apply walk_node_isTag | done].
Qed.

Lemma for_of_until_app {A S} (body : A → S → bool * S) l1 l2 st :
  for_of_until body (l1 ++ l2) st
  = let '(stop, st') := for_of_until body l1 st in
    if stop then (true, st') else for_of_until body l2 st'.
Proof.
  revert st. induction l1 as [|x l1 IH]; intros st; simpl; [done|].
  destruct (body x st) as [[] st']; [done|]. apply IH.
Qed.

(** *** By id: the recursion over the tree is one loop over the walk *)

Lemma search_id_node_flat id n st :
  search_id_node id n st = for_of_until (id_step id) (walk_node n) st.
Proof.
  revert st. induction n as [r t nm a ch IH] using AnyNode_nested_ind. intros st.
  destruct (isTagType t) eqn:Ht.
  - rewrite walk_node_tag by done. cbn [search_id_node for_of_until]. rewrite Ht.
    unfold id_step at 1.
    destruct (id_is id _ && negb _); [done|].
    destruct ch as [cs|]; [|done].
    generalize (visit (mkNode r t nm a (Some cs)) st). clear st.
    induction IH as [|c cs Hc _ IHcs]; intros st; [done|].
    rewrite walk_cons, for_of_until_app. cbn [for_of_until].
    rewrite Hc. destruct (for_of_until _ (walk_node c) st) as [[] st']; [done|].
    apply IHcs.
  - rewrite walk_node_not_tag by done. simpl. by rewrite Ht.
Qed.

Lemma search_id_flat id nodes st :
  search_id id nodes st = for_of_until (id_step id) (walk nodes) st.
Proof.
  unfold search_id. revert st. induction nodes as [|n nodes IH]; intros st; [done|].
  rewrite walk_cons, for_of_until_app. cbn [for_of_until].
  rewrite search_id_node_flat.
  destruct (for_of_until _ (walk_node n) st) as [[] st']; [done|]. apply IH.
Qed.

Lemma id_step_unseen id x st :
  seen st = ∅ →
  id_step id x st
  = if id_is id x then (true, record_match x (visit x st)) else (false, visit x st).
Proof.
  intros Hseen. unfold id_step. cbn [visit seen]. rewrite Hseen.
  rewrite bool_decide_eq_false_2 by apply not_elem_of_empty. by rewrite andb_true_r.
Qed.

(** With nothing seen yet, the loop stops at the first node with the id,
    records it alone, and has examined the walk up to it. *)
Lemma id_loop_outcome id l st :
  seen st = ∅ →
  let r := for_of_until (id_step id) l st in
  fst r = bool_decide (is_Some (find (id_is id) l))
  ∧ results (snd r) = results st ++ option_list (find (id_is id) l)
  ∧ visited (snd r) = visited st ++ take_through (id_is id) l.
Proof.
  revert st. induction l as [|x l IH]; intros st Hseen; cbn [for_of_until].
  - simpl. by rewrite !app_nil_r.
  - rewrite id_step_unseen by done. cbn [find take_through].
    destruct (id_is id x); [done|].
    destruct (IH (visit x st) Hseen) as (Hfst & Hres & Hvis).
    cbv zeta. rewrite Hfst, Hres, Hvis. simpl. by rewrite <- app_assoc.
Qed.

(** *** By class: likewise, without the early exit *)

Lemma search_class_node_flat c n st :
  search_class_node c st n = foldl (class_step c) st (walk_node n).
Proof.
  revert st. induction n as [r t nm a ch IH] using AnyNode_nested_ind. intros st.
  destruct (isTagType t) eqn:Ht.
  - rewrite walk_node_tag by done. cbn [search_class_node foldl]. rewrite Ht.
    unfold class_step at 2. cbv zeta.
    destruct ch as [cs|]; [|done].
    match goal with |- foldl _ ?s _ = _ => generalize s end. clear st.
    induction IH as [|c0 cs Hc _ IHcs]; intros st; [done|].
    rewrite walk_cons, foldl_app. cbn [foldl]. rewrite Hc. apply IHcs.
  - rewrite walk_node_not_tag by done. simpl. by rewrite Ht.
Qed.

Lemma search_class_flat c nodes st :
  search_class c nodes st = foldl (class_step c) st (walk nodes).
Proof.
  unfold search_class. revert st. induction nodes as [|n nodes IH]; intros st; [done|].
  rewrite walk_cons, foldl_app. cbn [foldl].
  rewrite search_class_node_flat. apply IH.
Qed.

Lemma class_loop_outcome c l st :
  results (foldl (class_step c) st l)
  = results st ++ first_by_ref (seen st) (filter (λ n, has_class c n) l)
  ∧ visited (foldl (class_step c) st l) = visited st ++ l.
Proof.
  revert st. induction l as [|x l IH]; intros st; simpl.
  - by rewrite !app_nil_r.
  - destruct (IH (class_step c st x)) as [Hres Hvis]. rewrite Hres, Hvis.
    unfold class_step. cbn [visit seen].
    destruct (has_class c x) eqn:Hx.
    + rewrite filter_cons_True by (simpl; by rewrite Hx). cbn [first_by_ref andb].
      destruct (bool_decide (ref x ∈ seen st)); simpl; rewrite <- ?app_assoc; done.
    + rewrite filter_cons_False by (rewrite Hx; simpl; tauto).
      simpl. rewrite <- ?app_assoc. done.
Qed.

(** *** Keeping the first node of each reference *)

Lemma first_by_ref_sublist refs l : first_by_ref refs l `sublist_of` l.
Proof.
  revert refs. induction l as [|x l IH]; intros refs; simpl; [constructor|].
  destruct (bool_decide _); [apply sublist_cons, IH | apply sublist_skip, IH].
Qed.

Lemma first_by_ref_elem refs l x :
  x ∈ first_by_ref refs l → x ∈ l ∧ ref x ∉ refs.
Proof.
  revert refs. induction l as [|y l IH]; intros refs; simpl; [by intros ?%elem_of_nil|].
  destruct (bool_decide_reflect (ref y ∈ refs)) as [Hy|Hy].
  - intros Hx. destruct (IH _ Hx) as [Hl Hrefs]. split; [by right | done].
  - intros [->|Hx]%elem_of_cons.
    + split; [by left | done].
    + destruct (IH _ Hx) as [Hl Hrefs]. split; [by right|].
      intros Hin. apply Hrefs, elem_of_union. by right.
Qed.

Lemma first_by_ref_NoDup refs l : NoDup (ref <$> first_by_ref refs l).
Proof.
  revert refs. induction l as [|y l IH]; intros refs; simpl; [constructor|].
  destruct (bool_decide_reflect (ref y ∈ refs)) as [Hy|Hy]; [apply IH|].
  rewrite fmap_cons. apply NoDup_cons. split; [|apply IH].
  intros (z & Hz & [_ Hnot]%first_by_ref_elem)%list_elem_of_fmap.
  apply Hnot, elem_of_union. left. by apply elem_of_singleton.
Qed.

Lemma first_by_ref_covers refs l x :
  x ∈ l → ref x ∉ refs → ref x ∈ ref <$> first_by_ref refs l.
Proof.
  revert refs. induction l as [|y l IH]; intros refs; simpl; [by intros ?%elem_of_nil|].
  intros Hx Hrefs.
  destruct (bool_decide_reflect (ref y ∈ refs)) as [Hy|Hy].
  - apply IH; [|done]. by destruct (proj1 (elem_of_cons _ _ _) Hx) as [->|Hl].
  - rewrite fmap_cons. destruct (decide (ref x = ref y)) as [->|Hne]; [by left|].
    right. apply IH; [|by intros [?%elem_of_singleton|?]%elem_of_union].
    by destruct (proj1 (elem_of_cons _ _ _) Hx) as [->|Hl].
Qed.

Lemma NoDup_ref_one_node l : NoDup (ref <$> l) → one_node_per_ref l.
Proof.
  intros Hnd a b Ha Hb Hab.
  apply list_elem_of_lookup in Ha as [i Hi]. apply list_elem_of_lookup in Hb as [j Hj].
  assert (i = j) as ->; [|congruence].
  apply (NoDup_lookup _ _ _ (ref a) Hnd); rewrite list_lookup_fmap.
  - by rewrite Hi.
  - rewrite Hj. simpl. by rewrite Hab.
Qed.

Lemma one_node_per_ref_sublist l k :
  k `sublist_of` l → one_node_per_ref l → one_node_per_ref k.
Proof.
  intros Hsub Hl a b Ha Hb. apply Hl; by eapply elem_of_sublist.
Qed.

Lemma first_by_ref_keeps_node refs l x :
  one_node_per_ref l → x ∈ l → ref x ∉ refs → x ∈ first_by_ref refs l.
Proof.
  intros Hone Hx Hrefs.
  destruct (proj1 (list_elem_of_fmap _ _ _) (first_by_ref_covers refs l x Hx Hrefs))
    as (y & Href & Hy).
  assert (x = y) as ->; [|done].
  apply Hone; [done| |done]. by apply first_by_ref_elem in Hy as [? _].
Qed.

Lemma first_by_ref_NoDup_id refs l :
  NoDup (ref <$> l) → (∀ x, x ∈ l → ref x ∉ refs) → first_by_ref refs l = l.
Proof.
  revert refs. induction l as [|y l IH]; intros refs Hnd Hrefs; simpl; [done|].
  rewrite fmap_cons in Hnd. apply NoDup_cons in Hnd as [Hy Hnd].
  rewrite bool_decide_eq_false_2 by (apply Hrefs; by left).
  f_equal. apply IH; [done|].
  intros x Hx. assert (ref x ≠ ref y).
  { intros Heq. apply Hy. rewrite <- Heq. by apply list_elem_of_fmap_2. }
  assert (ref x ∉ refs) by (apply Hrefs; by right).
  by intros [?%elem_of_singleton|?]%elem_of_union.
Qed.

(** *** What the two searches return *)

Lemma fastFindById_run_outcome root id :
  results (fastFindById_run root id) = option_list (find (id_is id) (walk root))
  ∧ visited (fastFindById_run root id) = take_through (id_is id) (walk root).
Proof.
  unfold fastFindById_run. rewrite search_id_flat.
  destruct (id_loop_outcome id (walk root) search_start eq_refl) as (_ & Hres & Hvis).
  by rewrite Hres, Hvis.
Qed.

Lemma find_first p (before : list AnyNode) m after :
  Forall (λ n, p n = false) before → p m = true →
  find p (before ++ m :: after) = Some m
  ∧ take_through p (before ++ m :: after) = before ++ [m].
Proof.
  intros Hbefore Hm. induction Hbefore as [|x before Hx _ [IH1 IH2]]; simpl.
  - by rewrite Hm.
  - by rewrite Hx, IH1, IH2.
Qed.

Lemma fastFindByClass_outcome root c :
  fastFindByClass root c
  = first_by_ref ∅ (filter (λ n, c ∈ classes n) (walk root)).
Proof.
  unfold fastFindByClass. rewrite search_class_flat.
  destruct (class_loop_outcome c (walk root) search_start) as [-> _]. simpl.
  f_equal. apply list_filter_iff. intros n. unfold has_class.
  apply bool_decide_spec.
Qed.

Lemma classes_absent n : attrib n (js "class") = None → classes n = [].
Proof. unfold classes. by intros ->. Qed.

(** C4: [fastFindById] returns at most one element.  It returns the first
    element of the pre-order walk whose [id] attribute is the target, if
    there is one (and nothing otherwise): when the walk is
    [before ++ m :: after] with no match in [before] and [m] a match, the
    result is [[m]] whatever [after] holds, other elements with the same id
    included; and the nodes the search examined are [before ++ [m]], that is,
    it stopped at [m]. *)
Theorem fastFindById_first_match (root : list AnyNode) (id : jsstring) :
  (length (fastFindById root id) ≤ 1)%nat
  ∧ fastFindById root id = option_list (find (id_is id) (walk root))
  ∧ visited (fastFindById_run root id) = take_through (id_is id) (walk root)
  ∧ (∀ before m after,
       walk root = before ++ m :: after →
       Forall (λ n, id_is id n = false) before →
       id_is id m = true →
       isTag m = true
       ∧ fastFindById root id = [m]
       ∧ visited (fastFindById_run root id) = before ++ [m]).
Proof.
  unfold fastFindById.
  destruct (fastFindById_run_outcome root id) as [Hres Hvis].
  rewrite Hres, Hvis. repeat split.
  - destruct (find _ _); simpl; lia.
  - pose proof (walk_isTag root) as Htag. rewrite H in Htag.
    apply Forall_app in Htag as [_ Htag]. by apply Forall_cons in Htag as [? _].
  - rewrite H. by destruct (find_first (id_is id) before m after) as [-> _].
  - rewrite H. by destruct (find_first (id_is id) before m after) as [_ ->].
Qed.

(** On [doc1] the first and the second item carry the id [x]: the search
    returns the first and has examined the list element and that item only. *)
Lemma fastFindById_first_match_witness :
  isTag li_first = true
  ∧ fastFindById doc1 (js "x") = [li_first]
  ∧ visited (fastFindById_run doc1 (js "x")) = [ul] ++ [li_first].
Proof.
  destruct (fastFindById_first_match doc1 (js "x")) as (_ & _ & _ & H).
  apply (H [ul] li_first [li_second; li_other]).
  - reflexivity.
  - repeat constructor.
  - reflexivity.
Defined.

(** *** Splitting a class attribute *)

Lemma split_spaces_leading c (v : jsstring) :
  is_space c = true → [] ∈ split_spaces (c :: v).
Proof. intros Hc. unfold split_spaces. simpl. rewrite Hc. by left. Qed.

Lemma split_spaces_from_trailing in_run piece (v : jsstring) c :
  is_space c = true → [] ∈ split_spaces_from in_run piece (v ++ [c]).
Proof.
  intros Hc. revert in_run piece.
  induction v as [|x v IH]; intros in_run piece; simpl.
  - rewrite Hc. destruct in_run; [by left | right; by left].
  - destruct (is_space x); [destruct in_run|]; [apply IH | right; apply IH | apply IH].
Qed.

Lemma split_spaces_trailing c (v : jsstring) :
  is_space c = true → [] ∈ split_spaces (v ++ [c]).
Proof. apply split_spaces_from_trailing. Qed.

(** The split never yields an empty array. *)
Lemma split_spaces_from_nonempty in_run piece (s : jsstring) :
  split_spaces_from in_run piece s ≠ [].
Proof.
  revert in_run piece. induction s as [|x s IH]; intros in_run piece; simpl; [done|].
  destruct (is_space x); [destruct in_run|]; [apply IH | done | apply IH].
Qed.

(** C5: [fastFindByClass] returns tag-type elements of the walk, in the order
    of the walk, no element twice; each has the class name among the pieces
    of its [class] attribute split at white space, and every element of the
    walk that has is returned.  An element without a [class] attribute has
    no classes and is not returned. *)
Theorem fastFindByClass_complete (root : list AnyNode) (className : jsstring) :
  let found := fastFindByClass root className in
  found `sublist_of` walk root
  ∧ NoDup (ref <$> found)
  ∧ (∀ n, n ∈ found → n ∈ walk root ∧ isTag n = true ∧ className ∈ classes n)
  ∧ (∀ n, n ∈ walk root → className ∈ classes n → ref n ∈ ref <$> found)
  ∧ (one_node_per_ref (walk root) →
     ∀ n, n ∈ found ↔ n ∈ walk root ∧ className ∈ classes n)
  ∧ (NoDup (ref <$> walk root) →
     found = filter (λ n, className ∈ classes n) (walk root))
  ∧ (∀ n, attrib n (js "class") = None → classes n = [] ∧ n ∉ found).
Proof.
  intros found. unfold found. rewrite fastFindByClass_outcome.
  set (matching := filter (λ n, className ∈ classes n) (walk root)).
  assert (∀ n, n ∈ first_by_ref ∅ matching → n ∈ walk root ∧ className ∈ classes n)
    as Hsound.
  { intros n [Hn _]%first_by_ref_elem. apply list_elem_of_filter in Hn. tauto. }
  assert (∀ n, n ∈ walk root → className ∈ classes n → n ∈ matching) as Hmatching.
  { intros n Hn Hc. by apply list_elem_of_filter. }
  repeat split.
  - etrans; [apply first_by_ref_sublist | apply sublist_filter].
  - apply first_by_ref_NoDup.
  - by apply Hsound.
  - pose proof (walk_isTag root) as Htag. rewrite Forall_forall in Htag.
    by apply Htag, Hsound.
  - by apply Hsound.
  - intros n Hn Hc. apply first_by_ref_covers; [by apply Hmatching | apply not_elem_of_empty].
  - by apply Hsound.
  - by apply Hsound.
  - intros [Hn Hc]. apply first_by_ref_keeps_node;
      [|by apply Hmatching | apply not_elem_of_empty].
    eapply one_node_per_ref_sublist; [apply sublist_filter | done].
  - intros Hnd. apply first_by_ref_NoDup_id; [|intros; apply not_elem_of_empty].
    apply (sublist_NoDup _ (ref <$> walk root)); [done|].
    apply fmap_sublist, sublist_filter.
  - by apply classes_absent.
  - intros [_ Hc]%Hsound. rewrite classes_absent in Hc by done.
    by apply elem_of_nil in Hc.
Qed.

(** The example of the specification: of three items with the classes
    [item featured], [item] and [ other], the search for [item] returns the
    first two, in order. *)
Lemma fastFindByClass_complete_witness :
  fastFindByClass doc1 (js "item")
  = filter (λ n, js "item" ∈ classes n) (walk doc1)
  ∧ filter (λ n, js "item" ∈ classes n) (walk doc1) = [li_first; li_second].
Proof.
  split; [|reflexivity].
  apply (fastFindByClass_complete doc1 (js "item")).
  apply (bool_decide_unpack _). vm_compute. exact I.
Defined.

(** C10: an element of the walk whose [class] attribute starts or ends with
    a white-space character is returned by [fastFindByClass(root, "")]: the
    split of such a value has an empty piece.  An element without a [class]
    attribute is not returned. *)
Theorem fastFindByClass_empty_name (root : list AnyNode) (n : AnyNode)
    (v v' : jsstring) (c : code_unit) :
  n ∈ walk root →
  attrib n (js "class") = Some v →
  is_space c = true →
  v = c :: v' ∨ v = v' ++ [c] →
  [] ∈ split_spaces v
  ∧ ref n ∈ ref <$> fastFindByClass root []
  ∧ (one_node_per_ref (walk root) → n ∈ fastFindByClass root [])
  ∧ (∀ m, attrib m (js "class") = None → m ∉ fastFindByClass root []).
Proof.
  intros Hn Hv Hc Hends.
  assert ([] ∈ split_spaces v) as Hsplit.
  { destruct Hends as [-> | ->];
      [by apply split_spaces_leading | by apply split_spaces_trailing]. }
  assert ([] ∈ classes n) as Hclasses by (unfold classes; by rewrite Hv).
  split; [done|]. rewrite fastFindByClass_outcome.
  set (matching := filter (λ n, [] ∈ classes n) (walk root)).
  assert (n ∈ matching) as Hmatching by by apply list_elem_of_filter.
  repeat split.
  - apply first_by_ref_covers; [done | apply not_elem_of_empty].
  - intros Hone. apply first_by_ref_keeps_node; [|done | apply not_elem_of_empty].
    eapply one_node_per_ref_sublist; [apply sublist_filter | done].
  - intros m Hm [Hin _]%first_by_ref_elem.
    apply list_elem_of_filter in Hin as [Hin _].
    rewrite classes_absent in Hin by done. by apply elem_of_nil in Hin.
Qed.

(** The third item of [doc1] has the class attribute [ other]. *)
Lemma fastFindByClass_empty_name_witness :
  [] ∈ split_spaces (js " other")
  ∧ ref li_other ∈ ref <$> fastFindByClass doc1 []
  ∧ (one_node_per_ref (walk doc1) → li_other ∈ fastFindByClass doc1 [])
  ∧ (∀ m, attrib m (js "class") = None → m ∉ fastFindByClass doc1 []).
Proof.
  apply (fastFindByClass_empty_name doc1 li_other (js " other") (js "other") 32%N).
  - change (walk doc1) with [ul; li_first; li_second; li_other].
    do 3 apply list_elem_of_further. apply list_elem_of_here.
  - reflexivity.
  - reflexivity.
  - left. reflexivity.
Defined.

(** ** The wrapper pool *)

Lemma removelast_elem_of {T} (l : list T) x : x ∈ removelast l → x ∈ l.
Proof.
  destruct (decide (l = [])) as [->|Hne]; [done|].
  destruct (exists_last Hne) as (l' & y & ->).
  rewrite removelast_last. intros Hx. apply elem_of_app. by left.
Qed.

Lemma removelast_length_le {T} (l : list T) : (length (removelast l) ≤ length l)%nat.
Proof.
  destruct (decide (l = [])) as [->|Hne]; [done|].
  destruct (exists_last Hne) as (l' & y & ->).
  rewrite removelast_last, length_app. lia.
Qed.

(** *** Comparing a length with [maxSize] *)

Lemma length_lt_finite n q :
  length_lt n (Finite q) = true ↔ (inject_Z (Z.of_nat n) < q)%Q.
Proof.
  unfold length_lt. rewrite negb_true_iff, <- not_true_iff_false, Qle_bool_iff.
  split; [apply Qnot_le_lt | apply Qlt_not_le].
Qed.

(** If a length is below [maxSize], so is every smaller one. *)
Lemma length_lt_smaller a b m :
  (a ≤ b)%nat → length_lt b m = true → length_lt a m = true.
Proof.
  intros Hab. destruct m as [q| | |]; try done.
  rewrite !length_lt_finite. apply Qle_lt_trans. rewrite <- Zle_Qle. lia.
Qed.

(** [length < maxSize] holds up to the capacity and not from it on. *)
Lemma length_lt_capacity n m :
  length_lt n m = match capacity m with
                  | Some c => (n <? c)%nat
                  | None => true
                  end.
Proof.
  destruct m as [q| | |]; try done. cbn [capacity].
  apply eq_true_iff_eq. rewrite length_lt_finite, Nat.ltb_lt. split.
  - intros Hn. assert (Z.of_nat n < Qceiling q)%Z; [|lia].
    rewrite Zlt_Qlt. eapply Qlt_le_trans; [exact Hn | apply Qle_ceiling].
  - intros Hn. eapply Qle_lt_trans; [|apply Qceiling_lt].
    rewrite <- Zle_Qle. lia.
Qed.

Lemma length_lt_number_of_nat n m : length_lt n (number_of_nat m) = (n <? m)%nat.
Proof.
  apply eq_true_iff_eq. unfold number_of_nat.
  rewrite length_lt_finite, Nat.ltb_lt, <- Zlt_Qlt. lia.
Qed.

Section pool_facts.
Context {T : Type}.
Variable truthy : T → bool.
Variable factory : nat → T.

Lemma pool_step_maxSize (p : WrapperPool.t) o :
  WrapperPool.maxSize (WrapperPool.step truthy factory p o) = WrapperPool.maxSize p.
Proof.
  destruct o as [|obj|]; simpl; [| |done].
  - unfold WrapperPool.acquire, WrapperPool.pop.
    destruct (last _) as [obj|]; [destruct (truthy obj)|]; done.
  - unfold WrapperPool.release. by destruct (length_lt _ _).
Qed.

(** A natural number that is not below [maxSize] bounds the pool. *)
Lemma pool_step_bounded (p : WrapperPool.t) o (n : nat) :
  length_lt n (WrapperPool.maxSize p) = false →
  (length (WrapperPool.pool p) ≤ n)%nat →
  (length (WrapperPool.pool (WrapperPool.step truthy factory p o)) ≤ n)%nat.
Proof.
  intros Hn Hp. pose proof (removelast_length_le (WrapperPool.pool p)).
  destruct o as [|obj|]; simpl.
  - unfold WrapperPool.acquire, WrapperPool.pop.
    destruct (last _) as [obj|]; [destruct (truthy obj)|]; simpl; lia.
  - unfold WrapperPool.release.
    destruct (length_lt (length (WrapperPool.pool p)) (WrapperPool.maxSize p))
      eqn:Hroom; simpl; [|lia].
    rewrite length_app. simpl.
    destruct (decide (length (WrapperPool.pool p) < n)%nat) as [?|Hfull]; [lia|].
    rewrite (length_lt_smaller n (length (WrapperPool.pool p))) in Hn by (done || lia).
    done.
  - lia.
Qed.

Lemma pool_step_elem_of (p : WrapperPool.t) o x :
  x ∈ WrapperPool.pool (WrapperPool.step truthy factory p o) →
  x ∈ WrapperPool.pool p ∨ o = WrapperPool.Release x.
Proof.
  destruct o as [|obj|]; simpl.
  - unfold WrapperPool.acquire, WrapperPool.pop.
    destruct (last _) as [obj|]; [destruct (truthy obj)|]; simpl;
      intros ?%removelast_elem_of; by left.
  - unfold WrapperPool.release. destruct (length_lt _ _); simpl; [|by left].
    intros [?|Hx]%elem_of_app; [by left|].
    apply list_elem_of_singleton in Hx as ->. by right.
  - by intros ?%elem_of_nil.
Qed.

Lemma pool_run_invariant (p : WrapperPool.t) ops :
  let p' := WrapperPool.run truthy factory p ops in
  WrapperPool.maxSize p' = WrapperPool.maxSize p
  ∧ (∀ n : nat, length_lt n (WrapperPool.maxSize p) = false →
       (length (WrapperPool.pool p) ≤ n)%nat →
       (length (WrapperPool.pool p') ≤ n)%nat)
  ∧ ∀ x, x ∈ WrapperPool.pool p' → x ∈ WrapperPool.pool p ∨ WrapperPool.Release x ∈ ops.
Proof.
  revert p. induction ops as [|o ops IH]; intros p; simpl.
  - repeat split; [done|]. by left.
  - pose proof (pool_step_maxSize p o) as Hmax.
    destruct (IH (WrapperPool.step truthy factory p o)) as (Hmax' & Hlen & Hin).
    rewrite Hmax in Hmax', Hlen. repeat split; [done | |].
    + intros n Hn Hp. apply Hlen; [done|]. by apply pool_step_bounded.
    + intros x [Hx | Hx]%Hin; [|right; by right].
      apply pool_step_elem_of in Hx as [Hx | ->]; [by left | right; by left].
Qed.

Lemma pool_acquire_top (p : WrapperPool.t) rest obj :
  WrapperPool.pool p = rest ++ [obj] →
  WrapperPool.acquire truthy factory p
  = if truthy obj
    then (obj, WrapperPool.mk rest (WrapperPool.maxSize p) (WrapperPool.calls p))
    else (factory (WrapperPool.calls p),
          WrapperPool.mk rest (WrapperPool.maxSize p) (S (WrapperPool.calls p))).
Proof.
  intros Hp. unfold WrapperPool.acquire, WrapperPool.pop.
  by rewrite Hp, last_snoc, removelast_last.
Qed.
End pool_facts.

(** Two inputs on which C3 fails as it is stated.  After [release(0)] the
    pool holds one instance, and [acquire] invokes the factory all the same.
    With [maxSize] 1.5, after three [release]s the pool holds two instances,
    which is more than [maxSize]. *)
Lemma pool_falsy_instance_and_fractional_maxSize :
  ¬ acquire_reuses_pooled (λ z, negb (z =? 0)) (λ k, 100 + Z.of_nat k)
      (number_pool [WrapperPool.Release 0])
  ∧ ¬ within_maxSize
        (fractional_pool [WrapperPool.Release 1; WrapperPool.Release 2;
                          WrapperPool.Release 3]).
Proof.
  split.
  - intros H. destruct H as [_ H]; [done|]. vm_compute in H. discriminate H.
  - intros H. vm_compute in H. discriminate H.
Qed.

(** C3 (as the code has it): over any run of acquire, release and clear calls
    on a pool made by [createWrapperPool] (with [maxSize] any number, 50 when
    none is given), [release] keeps the instance exactly when the number of
    pooled instances is below [maxSize], so that the pool never holds more
    than [n] instances for a natural number [n] that is not below [maxSize]:
    never more than [maxSize] itself when that is a natural number.  The
    pool holds released instances only.  [acquire] on a pool whose last
    instance is truthy (any object is) returns that instance without invoking
    the factory; it invokes the factory when the pool is empty, and also when
    the instance it pops is falsy, which it drops. *)
Theorem pool_bounds {T} (truthy : T → bool) (factory : nat → T)
    (maxSize : option jsnumber) (ops : list WrapperPool.op) :
  let limit := default (number_of_nat 50) maxSize in
  let p := WrapperPool.run truthy factory (WrapperPool.createWrapperPool maxSize) ops in
  (∀ n : nat, length_lt n limit = false → (length (WrapperPool.pool p) ≤ n)%nat)
  ∧ (∀ m : nat, limit = number_of_nat m → (length (WrapperPool.pool p) ≤ m)%nat)
  ∧ (∀ obj, obj ∈ WrapperPool.pool p → WrapperPool.Release obj ∈ ops)
  ∧ (∀ obj,
       WrapperPool.release p obj
       = if length_lt (length (WrapperPool.pool p)) limit
         then WrapperPool.mk (WrapperPool.pool p ++ [obj]) limit (WrapperPool.calls p)
         else p)
  ∧ (∀ rest obj,
       WrapperPool.pool p = rest ++ [obj] → truthy obj = true →
       WrapperPool.acquire truthy factory p
       = (obj, WrapperPool.mk rest limit (WrapperPool.calls p)))
  ∧ (∀ rest obj,
       WrapperPool.pool p = rest ++ [obj] → truthy obj = false →
       WrapperPool.acquire truthy factory p
       = (factory (WrapperPool.calls p),
          WrapperPool.mk rest limit (S (WrapperPool.calls p))))
  ∧ (WrapperPool.pool p = [] →
     WrapperPool.acquire truthy factory p
     = (factory (WrapperPool.calls p),
        WrapperPool.mk [] limit (S (WrapperPool.calls p)))).
Proof.
  intros limit p.
  destruct (pool_run_invariant truthy factory
              (WrapperPool.createWrapperPool maxSize) ops)
    as (Hmax & Hlen & Hin).
  fold p in Hmax, Hlen, Hin. simpl in Hmax, Hlen. fold limit in Hmax, Hlen.
  assert (∀ n : nat, length_lt n limit = false →
            (length (WrapperPool.pool p) ≤ n)%nat) as Hbound.
  { intros n Hn. apply Hlen; [done | lia]. }
  repeat split.
  - done.
  - intros m Hm. apply Hbound. rewrite Hm, length_lt_number_of_nat.
    apply Nat.ltb_irrefl.
  - intros obj [Hobj|Hobj]%Hin; [by apply elem_of_nil in Hobj | done].
  - intros obj. unfold WrapperPool.release. rewrite Hmax.
    by destruct (length_lt _ _).
  - intros rest obj Hp Hobj.
    by rewrite (pool_acquire_top _ _ _ _ _ Hp), Hobj, Hmax.
  - intros rest obj Hp Hobj.
    by rewrite (pool_acquire_top _ _ _ _ _ Hp), Hobj, Hmax.
  - intros Hp. unfold WrapperPool.acquire, WrapperPool.pop.
    by rewrite Hp, Hmax.
Qed.

(** The example of the specification: with [maxSize = 2], of three instances
    released in a row the pool keeps the first two; the next [acquire] hands
    out a pooled instance, and after a [clear] it invokes the factory.  With
    [maxSize] 1.5 the pool holds no more than two instances, with [NaN]
    none. *)
Lemma pool_bounds_witness :
  let p := number_pool [WrapperPool.Release 1; WrapperPool.Release 2; WrapperPool.Release 3] in
  let p_fractional :=
    fractional_pool [WrapperPool.Release 1; WrapperPool.Release 2; WrapperPool.Release 3] in
  let p_nan :=
    WrapperPool.run (λ z, negb (z =? 0)) (λ k, 100 + Z.of_nat k)
      (WrapperPool.createWrapperPool (Some NotANumber)) [WrapperPool.Release 1] in
  WrapperPool.pool p = [1; 2]
  ∧ (length (WrapperPool.pool p) ≤ 2)%nat
  ∧ WrapperPool.acquire (λ z, negb (z =? 0)) (λ k, 100 + Z.of_nat k) p
    = (2, WrapperPool.mk [1] (number_of_nat 2) (WrapperPool.calls p))
  ∧ WrapperPool.acquire (λ z, negb (z =? 0)) (λ k, 100 + Z.of_nat k)
      (number_pool [WrapperPool.Release 1; WrapperPool.Acquire; WrapperPool.Clear])
    = (100, WrapperPool.mk [] (number_of_nat 2) 1)
  ∧ (length (WrapperPool.pool p_fractional) ≤ 2)%nat
  ∧ (length (WrapperPool.pool p_nan) ≤ 0)%nat.
Proof.
  intros p p_fractional p_nan.
  destruct (pool_bounds (λ z, negb (z =? 0)) (λ k, 100 + Z.of_nat k)
              (Some (number_of_nat 2))
              [WrapperPool.Release 1; WrapperPool.Release 2; WrapperPool.Release 3])
    as (_ & Hnat & _ & _ & Htop & _).
  destruct (pool_bounds (λ z, negb (z =? 0)) (λ k, 100 + Z.of_nat k)
              (Some (number_of_nat 2))
              [WrapperPool.Release 1; WrapperPool.Acquire; WrapperPool.Clear])
    as (_ & _ & _ & _ & _ & _ & Hempty).
  destruct (pool_bounds (λ z, negb (z =? 0)) (λ k, 100 + Z.of_nat k)
              (Some (Finite (3 # 2)))
              [WrapperPool.Release 1; WrapperPool.Release 2; WrapperPool.Release 3])
    as (Hfractional & _).
  destruct (pool_bounds (λ z, negb (z =? 0)) (λ k, 100 + Z.of_nat k)
              (Some NotANumber) [WrapperPool.Release 1])
    as (Hnan & _).
  split; [reflexivity|]. split; [|split; [|split; [|split]]].
  - apply (Hnat 2%nat). reflexivity.
  - apply (Htop [1] 2); reflexivity.
  - apply Hempty. reflexivity.
  - apply (Hfractional 2%nat). reflexivity.
  - apply (Hnan 0%nat). reflexivity.
Defined.

(** * Further properties *)

(** ** [hashChildren] *)

Lemma to_int32_range z : - 2 ^ 31 ≤ to_int32 z < 2 ^ 31.
Proof.
  unfold to_int32. pose proof (Z.mod_pos_bound (z + 2 ^ 31) (2 ^ 32)). lia.
Qed.

Lemma hashChildren_nonempty (cs : list AnyNode) :
  cs ≠ [] →
  hashChildren (Some cs) = foldl hash_step (Z.of_nat (length cs)) (take 10 cs).
Proof.
  intros Hne. unfold hashChildren. rewrite take_min_length.
  destruct cs; [done|]. reflexivity.
Qed.

(** The loop reads of each child its [name_code] alone. *)
Lemma hash_fold_name_codes (l : list AnyNode) hash :
  foldl hash_step hash l
  = foldl (λ h code, to_int32 (or_zero (js_add (h * 31) code))) hash (name_code <$> l).
Proof. by rewrite foldl_fmap. Qed.

Lemma hashChildren_name_codes (cs cs' : list AnyNode) :
  length cs = length cs' →
  name_code <$> take 10 cs = name_code <$> take 10 cs' →
  hashChildren (Some cs) = hashChildren (Some cs').
Proof.
  intros Hlen Hcodes.
  destruct cs as [|c cs], cs' as [|c' cs']; try done.
  rewrite !hashChildren_nonempty by done.
  by rewrite !hash_fold_name_codes, Hlen, Hcodes.
Qed.

(** X1: the fingerprint is a signed 32-bit integer, whatever the children
    are: never [NaN], never out of range. *)
Theorem hashChildren_int32 (children : option (list AnyNode)) :
  - 2 ^ 31 ≤ hashChildren children < 2 ^ 31.
Proof.
  destruct children as [cs|]; [|simpl; lia].
  destruct (decide (cs = [])) as [->|Hne]; [simpl; lia|].
  rewrite hashChildren_nonempty by done.
  assert (take 10 cs ≠ []) as Htake by (by destruct cs).
  destruct (exists_last Htake) as (l & x & ->).
  rewrite foldl_snoc. apply to_int32_range.
Qed.

(** X2: the fingerprint depends on the number of children and on the first
    code unit of the name of each of the first ten, and on nothing else:
    two child sequences that agree on these have the same fingerprint,
    whatever their attributes, their own children, the rest of their names
    and the children after the tenth are. *)
Theorem hashChildren_reads_count_and_initials (cs cs' : list AnyNode) :
  length cs = length cs' →
  name_code <$> take 10 cs = name_code <$> take 10 cs' →
  hashChildren (Some cs) = hashChildren (Some cs').
Proof.
  intros Hlen Hcodes.
  destruct cs as [|c cs], cs' as [|c' cs']; try done.
  rewrite !hashChildren_nonempty by done.
  rewrite !hash_fold_name_codes. by rewrite Hlen, Hcodes.
Qed.

Lemma hashChildren_reads_count_and_initials_witness :
  hashChildren (children sect) = hashChildren (children sect_renamed)
  ∧ hashChildren (children eleven) = hashChildren (children eleven_changed).
Proof.
  split.
  - apply hashChildren_reads_count_and_initials; reflexivity.
  - apply hashChildren_reads_count_and_initials; reflexivity.
Defined.

(** X3: a child without a name (a text node, a comment), or with the empty
    name, among the first ten makes the function forget the child count and
    every child before it: the result is the hash of the children that
    follow it within the first ten, started from 0. *)
Theorem hashChildren_forgets_before_nameless (before after : list AnyNode)
    (child : AnyNode) :
  (length before < 10)%nat →
  name child = None ∨ name child = Some [] →
  hashChildren (Some (before ++ child :: after))
  = foldl hash_step 0 (take (9 - length before) after).
Proof.
  intros Hlen Hname.
  rewrite hashChildren_nonempty by (by destruct before).
  rewrite take_app_ge by lia.
  replace (10 - length before)%nat with (S (9 - length before)) by lia.
  rewrite firstn_cons, foldl_app. cbn [foldl].
  by rewrite hash_step_nameless.
Qed.

Lemma hashChildren_forgets_before_nameless_witness :
  hashChildren (Some ([li_first; li_second] ++ text_node 4 :: [li_other]))
  = foldl hash_step 0 (take (9 - 2) [li_other]).
Proof.
  apply (hashChildren_forgets_before_nameless [li_first; li_second] [li_other]).
  - simpl. lia.
  - left. reflexivity.
Defined.

(** X4: when each of the first ten children has a non-empty name, element or
    not, the fingerprint is the child count with the first code unit of each
    name folded in as [hash * 31 + code], cut to 32 bits at each step. *)
Theorem hashChildren_named_children (cs : list AnyNode) :
  cs ≠ [] →
  Forall (λ child, ∃ c s, name child = Some (c :: s)) (take 10 cs) →
  hashChildren (Some cs)
  = foldl (λ hash child, to_int32 (hash * 31 + name_first_code child))
      (Z.of_nat (length cs)) (take 10 cs).
Proof.
  intros Hne Hnamed. rewrite hashChildren_nonempty by done.
  apply (foldl_ext_Forall _ _ _ _ _ Hnamed).
  intros hash child (c & s & Hname).
  rewrite (hash_step_named _ _ _ _ Hname). unfold name_first_code. by rewrite Hname.
Qed.

Lemma hashChildren_named_children_witness :
  hashChildren (children sect)
  = foldl (λ hash child, to_int32 (hash * 31 + name_first_code child))
      2 (take 10 [el 21 "h1" [] []; el 22 "p" [] []]).
Proof.
  apply (hashChildren_named_children [el 21 "h1" [] []; el 22 "p" [] []]).
  - done.
  - repeat constructor; by eexists _, _.
Defined.

(** ** The text cache *)



(** X6: asking twice is asking once: a second [getCachedText(n)] on an
    unchanged node returns what the first returned and leaves the store as
    the first left it. *)
Theorem getCachedText_twice (textCache : gmap positive TextCacheEntry) (n : AnyNode) :
  getCachedText (snd (getCachedText textCache n)) n = getCachedText textCache n.
Proof.
  unfold getCachedText at 2 3.
  destruct (textCache !! ref n) as [entry|] eqn:Hentry.
  - destruct (Z.eqb_spec (childrenHash entry) (hashChildren (children n))) as [Heq|Hne];
      simpl.
    + by rewrite (getCachedText_hit _ _ entry).
    + by rewrite getCachedText_miss by apply lookup_delete_eq.
  - simpl. by rewrite getCachedText_miss.
Qed.

(** X7: the cache does not see a change of the children that keeps their
    number and the first code unit of the names of the first ten: the text
    cached before the change is returned after it.  Replacing the eleventh
    child, or a child by one whose name starts with the same letter, is such
    a change. *)
Theorem getCachedText_unseen_change (textCache : gmap positive TextCacheEntry)
    (n n' : AnyNode) (cs cs' : list AnyNode) (t : jsstring) :
  ref n' = ref n →
  children n = Some cs →
  children n' = Some cs' →
  length cs = length cs' →
  name_code <$> take 10 cs = name_code <$> take 10 cs' →
  getCachedText (setCachedText textCache n t) n'
  = (Some t, setCachedText textCache n t).
Proof.
  intros Href Hcs Hcs' Hlen Hcodes.
  apply (getCachedText_hit _ _ {| text := t; childrenHash := hashChildren (children n) |}).
  - unfold setCachedText. rewrite Href. apply lookup_insert_eq.
  - simpl. rewrite Hcs, Hcs'. by apply hashChildren_name_codes.
Qed.

Lemma getCachedText_unseen_change_witness :
  getCachedText (setCachedText ∅ eleven (js "old")) eleven_changed
  = (Some (js "old"), setCachedText ∅ eleven (js "old")).
Proof.
  eapply (getCachedText_unseen_change ∅ eleven eleven_changed); reflexivity.
Defined.

(** ** The selector cache *)

(** X8: [getCachedSelector] after [setCachedSelector(c, s, r)] returns [r] for
    the pair [(c, s)], replacing what was stored for it, and for any other
    context or selector what it returned before; on an empty store it returns
    [undefined]. *)
Theorem selector_cache_lookup
    (selectorCache : gmap positive (gmap jsstring (list positive)))
    (c c' : positive) (s s' : jsstring) (r : list positive) :
  getCachedSelector (setCachedSelector selectorCache c s r) c' s'
  = (if decide (c = c' ∧ s = s') then Some r
     else getCachedSelector selectorCache c' s')
  ∧ getCachedSelector ∅ c' s' = None.
Proof.
  split; [|done]. unfold getCachedSelector, setCachedSelector.
  destruct (decide (c = c')) as [<-|Hc].
  - rewrite lookup_insert_eq. simpl.
    destruct (decide (s = s')) as [<-|Hs].
    + rewrite decide_True by done. apply lookup_insert_eq.
    + rewrite decide_False by tauto. rewrite lookup_insert_ne by done.
      by destruct (selectorCache !! c).
  - rewrite decide_False by tauto. by rewrite lookup_insert_ne.
Qed.

(** ** The attribute cache *)

(** X9: after [setCachedAttribute(e, a, v)] the attribute [a] of [e] reads [v]
    and counts as cached; every other attribute of [e] and every attribute of
    another element reads, and counts, as before. *)
Theorem attribute_cache_lookup
    (attributeCache : gmap positive (gmap jsstring (option jsstring)))
    (e e' : AnyNode) (a a' : jsstring) (v : option jsstring) :
  getCachedAttribute (setCachedAttribute attributeCache e a v) e' a'
  = (if decide (ref e = ref e' ∧ a = a') then v
     else getCachedAttribute attributeCache e' a')
  ∧ hasAttributeCache (setCachedAttribute attributeCache e a v) e' a'
    = (if decide (ref e = ref e' ∧ a = a') then true
       else hasAttributeCache attributeCache e' a').
Proof.
  unfold getCachedAttribute, hasAttributeCache, setCachedAttribute.
  destruct (decide (ref e = ref e')) as [<-|He].
  - rewrite lookup_insert_eq. simpl.
    destruct (decide (a = a')) as [<-|Ha].
    + rewrite !decide_True by done. rewrite lookup_insert_eq.
      split; [done|]. apply bool_decide_eq_true. eauto.
    + rewrite !decide_False by tauto. rewrite lookup_insert_ne by done.
      by destruct (attributeCache !! ref e).
  - rewrite !decide_False by tauto. by rewrite lookup_insert_ne.
Qed.

(** X10: [invalidateAttributeCache(e)] drops every cached attribute of [e]
    and none of another element; an attribute cached afterwards is then the
    only one cached for [e]. *)
Theorem invalidateAttributeCache_drops_all
    (attributeCache : gmap positive (gmap jsstring (option jsstring)))
    (e : AnyNode) :
  (∀ a, hasAttributeCache (invalidateAttributeCache attributeCache e) e a = false
        ∧ getCachedAttribute (invalidateAttributeCache attributeCache e) e a = None)
  ∧ (∀ e' a, ref e' ≠ ref e →
       hasAttributeCache (invalidateAttributeCache attributeCache e) e' a
       = hasAttributeCache attributeCache e' a
       ∧ getCachedAttribute (invalidateAttributeCache attributeCache e) e' a
         = getCachedAttribute attributeCache e' a)
  ∧ (∀ a v b,
       hasAttributeCache
         (setCachedAttribute (invalidateAttributeCache attributeCache e) e a v) e b
       = bool_decide (a = b)).
Proof.
  unfold getCachedAttribute, hasAttributeCache, setCachedAttribute,
    invalidateAttributeCache.
  repeat split.
  - by rewrite lookup_delete_eq.
  - by rewrite lookup_delete_eq.
  - by rewrite lookup_delete_ne.
  - by rewrite lookup_delete_ne.
  - intros a v b. rewrite lookup_insert_eq, lookup_delete_eq. simpl.
    destruct (decide (a = b)) as [<-|Hab].
    + rewrite lookup_insert_eq. rewrite (bool_decide_eq_true_2 (a = a)) by done.
      apply bool_decide_eq_true. eauto.
    + rewrite lookup_insert_ne by done. rewrite lookup_empty.
      rewrite (bool_decide_eq_false_2 (a = b)) by done.
      apply bool_decide_eq_false. by intros [? ?].
Qed.

Lemma invalidateAttributeCache_drops_all_witness :
  let ac := setCachedAttribute (setCachedAttribute ∅ li_first (js "id") (Some (js "x")))
              li_second (js "id") None in
  hasAttributeCache (invalidateAttributeCache ac li_first) li_second (js "id")
  = hasAttributeCache ac li_second (js "id")
  ∧ getCachedAttribute (invalidateAttributeCache ac li_first) li_second (js "id")
    = getCachedAttribute ac li_second (js "id").
Proof.
  intros ac. apply (invalidateAttributeCache_drops_all ac li_first).
  vm_compute. lia.
Defined.

(** ** The traversal cache *)

Lemma slot_eqb_eq s1 s2 : slot_eqb s1 s2 = true ↔ s1 = s2.
Proof. destruct s1, s2; simpl; split; congruence. Qed.

Lemma get_slot_same_ref (tc : gmap positive TraversalEntry.t) n m s :
  ref m = ref n → get_slot tc m s = get_slot tc n s.
Proof.
  intros H. destruct s; simpl;
    unfold getCachedParent, getCachedNextSibling, getCachedPrevSibling,
      getCachedChildren; by rewrite H.
Qed.

Lemma get_slot_run_set (tc : gmap positive TraversalEntry.t) m call n s :
  get_slot (run_set tc m call) n s
  = if writes_slot n s (m, call) then Some (set_value call) else get_slot tc n s.
Proof.
  unfold writes_slot. cbn [fst snd].
  destruct (bool_decide_reflect (ref m = ref n)) as [Href|Href]; cbn [andb].
  - rewrite <- !(get_slot_same_ref _ n m s) by done.
    destruct call, s; cbn [slot_of slot_eqb set_value run_set get_slot];
      unfold getCachedParent, getCachedNextSibling, getCachedPrevSibling,
        getCachedChildren, setCachedParent, setCachedNextSibling,
        setCachedPrevSibling, setCachedChildren, traversal_entry;
      rewrite lookup_insert_eq; by destruct (tc !! ref m).
  - apply get_slot_other_node. apply run_set_other_node. congruence.
Qed.

(** X11: after any run of setter calls, on whatever nodes and slots, the
    getter of a slot of a node returns the value of the last call of the run
    that set this slot of this node, and what it returned before the run if
    there is no such call. *)
Theorem traversal_last_write_wins (tc : gmap positive TraversalEntry.t)
    (calls : list (AnyNode * traversal_set)) (n : AnyNode) (s : slot) :
  get_slot (run_sets tc calls) n s
  = match last_write n s calls with
    | Some call => Some (set_value call)
    | None => get_slot tc n s
    end.
Proof.
  unfold run_sets. revert tc.
  induction calls as [|[m call] calls IH]; intros tc; simpl; [done|].
  rewrite IH. destruct (last_write n s calls); [done|].
  rewrite get_slot_run_set. by destruct (writes_slot n s (m, call)).
Qed.

(** ** The classifier *)

Lemma trimStart_spaces (s : jsstring) :
  trimStart s = [] ↔ Forall (λ c, is_space c = true) s.
Proof.
  induction s as [|c s IH]; simpl; [by split; [constructor|]|].
  destruct (is_space c) eqn:Hc.
  - rewrite IH. split; [by constructor | by inversion 1].
  - split; [done|]. inversion 1; congruence.
Qed.

Lemma trimStart_spaces_app (a s : jsstring) :
  Forall (λ c, is_space c = true) a → trimStart (a ++ s) = trimStart s.
Proof. induction 1 as [|c a Hc _ IH]; simpl; [done|]. by rewrite Hc. Qed.

Lemma trimStart_app (s b : jsstring) :
  trimStart s ≠ [] → trimStart (s ++ b) = trimStart s ++ b.
Proof.
  induction s as [|c s IH]; simpl; [done|].
  destruct (is_space c); [apply IH | done].
Qed.

Lemma trimEnd_spaces_app (s b : jsstring) :
  Forall (λ c, is_space c = true) b → trimEnd (s ++ b) = trimEnd s.
Proof.
  intros Hb. unfold trimEnd. rewrite rev_app_distr.
  rewrite trimStart_spaces_app; [done|]. by apply Forall_rev.
Qed.

Lemma trim_padding (a s b : jsstring) :
  Forall (λ c, is_space c = true) a → Forall (λ c, is_space c = true) b →
  trim (a ++ s ++ b) = trim s.
Proof.
  intros Ha Hb. unfold trim. rewrite trimStart_spaces_app by done.
  destruct (decide (trimStart s = [])) as [Hs|Hs].
  - rewrite Hs. assert (trimStart (s ++ b) = []) as ->; [|done].
    apply trimStart_spaces, Forall_app. split; [by apply trimStart_spaces | done].
  - rewrite trimStart_app by done. by apply trimEnd_spaces_app.
Qed.

(** X12: white space around a selector does not change its classification:
    the selector with any white-space characters before and after it is
    parsed to the same type and value. *)
Theorem parseSimpleSelector_ignores_padding (a s b : jsstring) :
  Forall (λ c, is_space c = true) a →
  Forall (λ c, is_space c = true) b →
  parseSimpleSelector (a ++ s ++ b) = parseSimpleSelector s.
Proof.
  intros Ha Hb. unfold parseSimpleSelector. by rewrite trim_padding.
Qed.

Lemma parseSimpleSelector_ignores_padding_witness :
  parseSimpleSelector ([9; 32]%N ++ js "#main-nav" ++ [10; 160; 32]%N)
  = parseSimpleSelector (js "#main-nav").
Proof.
  apply parseSimpleSelector_ignores_padding; by repeat constructor.
Defined.

(** X13: the result tells the shape of the trimmed selector [t].  With type
    [id] the value [v] is present and [t] is [#] followed by [v]; with
    [class], [t] is [.] followed by [v]; with [tag], [v] is [t]; in these
    three cases [v] is one or more word or hyphen characters.  With type
    [complex] there is no value and [t] has none of the three shapes.  No
    other combination of type and value is returned. *)
Theorem parseSimpleSelector_shape (selector : jsstring) :
  selector_shape (trim selector) (parseSimpleSelector selector).
Proof.
  unfold parseSimpleSelector, selector_shape.
  generalize (trim selector). intros t.
  destruct (regex_test re_id t) eqn:Hid;
    [|destruct (regex_test re_class t) eqn:Hclass;
      [|destruct (regex_test re_tag t) eqn:Htag]];
    cbn [SimpleSelectorInfo.type SimpleSelectorInfo.value].
  - apply regex_test_lit_plus in Hid as (v & Ht & Hv). rewrite Ht. by split.
  - apply regex_test_lit_plus in Hclass as (v & Ht & Hv). rewrite Ht. by split.
  - split; [done|]. by apply regex_test_plus_class.
  - split.
    + intros Ht%regex_test_plus_class. unfold re_tag in Htag. congruence.
    + intros v Hv. split; intros Ht.
      * assert (regex_test re_id t = true); [|congruence].
        apply regex_test_lit_plus. by exists v.
      * assert (regex_test re_class t = true); [|congruence].
        apply regex_test_lit_plus. by exists v.
Qed.

(** ** The fast-path searches *)

Lemma walk_app l1 l2 : walk (l1 ++ l2) = walk l1 ++ walk l2.
Proof. apply flat_map_app. Qed.

Lemma elem_of_walk l x : x ∈ walk l ↔ ∃ n, n ∈ l ∧ x ∈ walk_node n.
Proof.
  unfold walk. rewrite list_elem_of_In, in_flat_map.
  by setoid_rewrite list_elem_of_In.
Qed.

Lemma walk_not_tags root : Forall (λ n, isTag n = false) root → walk root = [].
Proof.
  induction 1 as [|n root Hn _ IH]; [done|].
  rewrite walk_cons, IH. destruct n as [r t nm a ch].
  by rewrite walk_node_not_tag.
Qed.

(** The walk of a node of the walk is part of the walk. *)
Lemma walk_node_closed n m x : m ∈ walk_node n → x ∈ walk_node m → x ∈ walk_node n.
Proof.
  revert m x. induction n as [r t nm a ch IH] using AnyNode_nested_ind.
  intros m x. destruct (isTagType t) eqn:Ht.
  - rewrite walk_node_tag by done.
    intros [->|Hm]%elem_of_cons; [by rewrite walk_node_tag|].
    intros Hx. right. destruct ch as [cs|]; [|by apply elem_of_nil in Hm].
    apply elem_of_walk in Hm as (c & Hc & Hm). apply elem_of_walk. exists c.
    split; [done|]. rewrite Forall_forall in IH. by apply (IH c Hc m x).
  - rewrite walk_node_not_tag by done. by intros ?%elem_of_nil.
Qed.

Lemma walk_closed root extra :
  (∀ n, n ∈ extra → n ∈ walk root) → ∀ x, x ∈ walk extra → x ∈ walk root.
Proof.
  intros Hextra x (n & Hn & Hx)%elem_of_walk.
  apply Hextra, elem_of_walk in Hn as (k & Hk & Hn).
  apply elem_of_walk. exists k. split; [done|]. by apply (walk_node_closed k n x).
Qed.

Lemma first_by_ref_all_seen refs l :
  (∀ x, x ∈ l → ref x ∈ refs) → first_by_ref refs l = [].
Proof.
  induction l as [|y l IH]; intros Hl; simpl; [done|].
  rewrite bool_decide_eq_true_2 by (apply Hl; by left).
  apply IH. intros x Hx. apply Hl. by right.
Qed.

Lemma first_by_ref_app_seen refs l1 l2 :
  (∀ x, x ∈ l2 → ref x ∈ refs ∨ ref x ∈ ref <$> l1) →
  first_by_ref refs (l1 ++ l2) = first_by_ref refs l1.
Proof.
  revert refs. induction l1 as [|y l1 IH]; intros refs Hl2; simpl.
  - apply first_by_ref_all_seen. intros x Hx.
    destruct (Hl2 x Hx) as [?|Hnil]; [done | by apply elem_of_nil in Hnil].
  - assert (∀ x, x ∈ l2 → ref x ∈ {[ref y]} ∪ refs ∨ ref x ∈ ref <$> l1) as Hl2'.
    { intros x Hx. destruct (Hl2 x Hx) as [?|Hin].
      - left. apply elem_of_union. by right.
      - rewrite fmap_cons in Hin. apply elem_of_cons in Hin as [->|?]; [|by right].
        left. apply elem_of_union. left. by apply elem_of_singleton. }
    destruct (bool_decide_reflect (ref y ∈ refs)) as [Hy|Hy].
    + apply IH. intros x Hx. destruct (Hl2' x Hx) as [Hin|?]; [|by right].
      apply elem_of_union in Hin as [->%elem_of_singleton|?]; by left.
    + f_equal. by apply IH.
Qed.

Lemma find_app_seen {A} (p : A → bool) (l1 l2 : list A) :
  (∀ x, x ∈ l2 → x ∈ l1) → find p (l1 ++ l2) = find p l1.
Proof.
  intros Hl2. destruct (find p l1) as [x|] eqn:Hfind.
  - clear Hl2. induction l1 as [|y l1 IH]; simpl in *; [done|].
    destruct (p y); [done | by apply IH].
  - pose proof (find_none _ _ Hfind) as Hnone.
    assert (∀ x, x ∈ l1 ++ l2 → p x = false) as Hall.
    { intros x [?|?%Hl2]%elem_of_app; by apply Hnone, list_elem_of_In. }
    clear -Hall. induction (l1 ++ l2) as [|y l IH]; simpl; [done|].
    rewrite (Hall y) by by left. apply IH. intros x Hx. apply Hall. by right.
Qed.

(** X14: the searches look at tag-type nodes only and below tag-type nodes
    only: on root nodes none of which is tag-type (a document node, a text
    node, a comment, a directive), [fastFindById] and [fastFindByClass]
    return nothing, whatever lies below these nodes. *)
Theorem searches_skip_non_tag_roots (root : list AnyNode) (id className : jsstring) :
  Forall (λ n, isTag n = false) root →
  fastFindById root id = []
  ∧ visited (fastFindById_run root id) = []
  ∧ fastFindByClass root className = [].
Proof.
  intros Hroot.
  destruct (fastFindById_run_outcome root id) as [Hres Hvis].
  unfold fastFindById. rewrite Hres, Hvis, fastFindByClass_outcome.
  by rewrite (walk_not_tags root Hroot).
Qed.

(** Under the document node of [doc1] the first item has the id [x] and
    the class [item]. *)
Lemma searches_skip_non_tag_roots_witness :
  fastFindById [document; comment; text_node 4] (js "x") = []
  ∧ visited (fastFindById_run [document; comment; text_node 4] (js "x")) = []
  ∧ fastFindByClass [document; comment; text_node 4] (js "item") = [].
Proof.
  apply searches_skip_non_tag_roots. by repeat constructor.
Defined.

(** X15: listing among the roots, after them, nodes that the walk of the
    roots reaches already (a root twice, a root and one of its descendants)
    changes neither the result of [fastFindByClass] nor that of
    [fastFindById]: nothing is returned twice. *)
Theorem searches_ignore_reachable_roots (root extra : list AnyNode)
    (id className : jsstring) :
  (∀ n, n ∈ extra → n ∈ walk root) →
  fastFindByClass (root ++ extra) className = fastFindByClass root className
  ∧ fastFindById (root ++ extra) id = fastFindById root id.
Proof.
  intros Hextra. pose proof (walk_closed root extra Hextra) as Hwalk. split.
  - rewrite !fastFindByClass_outcome, walk_app, filter_app.
    apply first_by_ref_app_seen. intros x [Hx Hin]%list_elem_of_filter.
    right. apply list_elem_of_fmap_2, list_elem_of_filter. split; [done|].
    by apply Hwalk.
  - unfold fastFindById.
    destruct (fastFindById_run_outcome (root ++ extra) id) as [-> _].
    destruct (fastFindById_run_outcome root id) as [-> _].
    by rewrite walk_app, find_app_seen.
Qed.

Lemma searches_ignore_reachable_roots_witness :
  fastFindByClass (doc1 ++ [li_second; ul]) (js "item") = fastFindByClass doc1 (js "item")
  ∧ fastFindById (doc1 ++ [li_second; ul]) (js "x") = fastFindById doc1 (js "x").
Proof.
  apply searches_ignore_reachable_roots.
  change (walk doc1) with [ul; li_first; li_second; li_other].
  intros n [->|[->|Hn]%elem_of_cons]%elem_of_cons.
  - do 2 apply list_elem_of_further. apply list_elem_of_here.
  - apply list_elem_of_here.
  - by apply elem_of_nil in Hn.
Defined.

(** *** Class names with white space *)

Lemma split_spaces_from_no_space in_run piece (s : jsstring) :
  Forall (λ c, is_space c = false) piece →
  Forall (Forall (λ c, is_space c = false)) (split_spaces_from in_run piece s).
Proof.
  revert in_run piece. induction s as [|c s IH]; intros in_run piece Hpiece; simpl.
  - repeat constructor. by apply Forall_rev.
  - destruct (is_space c) eqn:Hc.
    + destruct in_run; [by apply IH|].
      constructor; [by apply Forall_rev | by apply IH].
    + apply IH. by constructor.
Qed.

(** X16: no piece of a split class attribute holds a white-space character,
    so a class name that holds one matches no element: [fastFindByClass]
    returns nothing for it. *)
Theorem fastFindByClass_spaced_name (root : list AnyNode) (className : jsstring)
    (c : code_unit) :
  c ∈ className → is_space c = true →
  fastFindByClass root className = []
  ∧ ∀ v, className ∉ split_spaces v.
Proof.
  intros Hc Hspace.
  assert (∀ v, className ∉ split_spaces v) as Hsplit.
  { intros v Hin.
    pose proof (split_spaces_from_no_space false [] v (Forall_nil_2 _)) as Hpieces.
    rewrite Forall_forall in Hpieces. specialize (Hpieces _ Hin).
    rewrite Forall_forall in Hpieces. specialize (Hpieces _ Hc). congruence. }
  split; [|done]. rewrite fastFindByClass_outcome.
  assert (filter (λ n, className ∈ classes n) (walk root) = []) as ->; [|done].
  apply elem_of_nil_inv. intros n [Hn _]%list_elem_of_filter.
  unfold classes in Hn. destruct (attrib n (js "class")) as [v|].
  - by apply (Hsplit v).
  - by apply elem_of_nil in Hn.
Qed.

Lemma fastFindByClass_spaced_name_witness :
  fastFindByClass doc1 (js "item featured") = []
  ∧ ∀ v, js "item featured" ∉ split_spaces v.
Proof.
  apply (fastFindByClass_spaced_name doc1 (js "item featured") 32%N).
  - do 4 apply list_elem_of_further. apply list_elem_of_here.
  - reflexivity.
Defined.

(** *** By tag *)

Lemma for_of_try_app {A S} (body : S → A → option S) st l1 l2 :
  for_of_try body st (l1 ++ l2)
  = st' ← for_of_try body st l1; for_of_try body st' l2.
Proof.
  revert st. induction l1 as [|x l1 IH]; intros st; simpl; [done|].
  destruct (body st x) as [st'|]; [apply IH | done].
Qed.

Section fastFindByTag_facts.
Variable toLowerCase : jsstring → jsstring.

Lemma tag_step_unfold lowerTag st node :
  tag_step toLowerCase lowerTag st node
  = match name_is toLowerCase lowerTag node with
    | Some same =>
        Some (if same && negb (bool_decide (ref node ∈ seen (visit node st)))
              then record_match node (visit node st) else visit node st)
    | None => None
    end.
Proof. reflexivity. Qed.

Lemma search_tag_node_flat lowerTag n st :
  search_tag_node toLowerCase lowerTag st n
  = for_of_try (tag_step toLowerCase lowerTag) st (walk_node n).
Proof.
  revert st. induction n as [r t nm a ch IH] using AnyNode_nested_ind. intros st.
  destruct (isTagType t) eqn:Ht.
  - rewrite walk_node_tag by done. cbn [search_tag_node for_of_try]. rewrite Ht.
    rewrite tag_step_unfold.
    destruct (name_is toLowerCase lowerTag _) as [same|]; [|done].
    destruct ch as [cs|]; [|done].
    match goal with |- for_of_try _ ?s _ = _ => generalize s end. clear st.
    induction IH as [|c0 cs Hc _ IHcs]; intros st; [done|].
    rewrite walk_cons, for_of_try_app. cbn [for_of_try]. rewrite Hc.
    destruct (for_of_try _ st (walk_node c0)) as [st'|]; [apply IHcs | done].
  - rewrite walk_node_not_tag by done. simpl. by rewrite Ht.
Qed.

Lemma search_tag_flat lowerTag nodes st :
  for_of_try (search_tag_node toLowerCase lowerTag) st nodes
  = for_of_try (tag_step toLowerCase lowerTag) st (walk nodes).
Proof.
  revert st. induction nodes as [|n nodes IH]; intros st; [done|].
  rewrite walk_cons, for_of_try_app. cbn [for_of_try].
  rewrite search_tag_node_flat.
  destruct (for_of_try _ st (walk_node n)) as [st'|]; [apply IH | done].
Qed.

Lemma tag_loop_named lowerTag l st :
  Forall (λ n, is_Some (name n)) l →
  ∃ st', for_of_try (tag_step toLowerCase lowerTag) st l = Some st'
         ∧ results st'
           = results st
             ++ first_by_ref (seen st)
                  (filter (λ n, name_matches toLowerCase lowerTag n) l).
Proof.
  intros Hl. revert st. induction Hl as [|x l [nm Hx] _ IH]; intros st.
  - exists st. simpl. by rewrite app_nil_r.
  - assert (name_is toLowerCase lowerTag x
            = Some (bool_decide (toLowerCase nm = lowerTag))) as Hname.
    { unfold name_is. by rewrite Hx. }
    cbn [for_of_try]. rewrite tag_step_unfold, Hname. cbn [visit seen].
    destruct (bool_decide (toLowerCase nm = lowerTag)) eqn:Hsame.
    + rewrite filter_cons_True by (unfold name_matches; by rewrite Hname).
      cbn [first_by_ref andb].
      destruct (bool_decide (ref x ∈ seen st)); cbn [negb].
      * destruct (IH (visit x st)) as (st' & -> & Hres). by exists st'.
      * destruct (IH (record_match x (visit x st))) as (st' & -> & Hres).
        exists st'. split; [done|]. rewrite Hres. simpl. by rewrite <- app_assoc.
    + rewrite filter_cons_False by (unfold name_matches; rewrite Hname; simpl; tauto).
      cbn [andb].
      destruct (IH (visit x st)) as (st' & -> & Hres). by exists st'.
Qed.

Lemma tag_loop_nameless lowerTag l st :
  Exists (λ n, name n = None) l →
  for_of_try (tag_step toLowerCase lowerTag) st l = None.
Proof.
  intros Hl. revert st. induction Hl as [x l Hx|x l _ IH]; intros st; simpl.
  - unfold tag_step, name_is. by rewrite Hx.
  - destruct (tag_step _ _ st x); [apply IH | done].
Qed.

Lemma fastFindByTag_flat root tagName :
  fastFindByTag toLowerCase root tagName
  = results <$> for_of_try (tag_step toLowerCase (toLowerCase tagName))
                  search_start (walk root).
Proof. unfold fastFindByTag. by rewrite search_tag_flat. Qed.

(** X17: when every element of the walk has a name, [fastFindByTag] returns,
    in the order of the walk and none twice, the elements whose name and the
    tag name asked for have the same lower-case form, and every such element
    of the walk is returned; so two tag names with the same lower-case form
    give the same result. *)
Theorem fastFindByTag_complete (root : list AnyNode) (tagName : jsstring) :
  Forall (λ n, is_Some (name n)) (walk root) →
  ∃ found,
    fastFindByTag toLowerCase root tagName = Some found
    ∧ found `sublist_of` walk root
    ∧ NoDup (ref <$> found)
    ∧ (∀ n, n ∈ found →
         n ∈ walk root ∧ isTag n = true
         ∧ ∃ nm, name n = Some nm ∧ toLowerCase nm = toLowerCase tagName)
    ∧ (∀ n nm, n ∈ walk root → name n = Some nm →
         toLowerCase nm = toLowerCase tagName → ref n ∈ ref <$> found)
    ∧ (∀ tagName', toLowerCase tagName' = toLowerCase tagName →
         fastFindByTag toLowerCase root tagName' = Some found).
Proof.
  intros Hnamed. set (lowerTag := toLowerCase tagName).
  set (matching := filter (λ n, name_matches toLowerCase lowerTag n) (walk root)).
  exists (first_by_ref ∅ matching).
  assert (∀ tagName', toLowerCase tagName' = lowerTag →
            fastFindByTag toLowerCase root tagName' = Some (first_by_ref ∅ matching))
    as Hrun.
  { intros tagName' Hlower. rewrite fastFindByTag_flat, Hlower.
    destruct (tag_loop_named lowerTag (walk root) search_start Hnamed)
      as (st' & -> & Hres). simpl. by rewrite Hres. }
  assert (∀ n, n ∈ matching ↔
            n ∈ walk root ∧ ∃ nm, name n = Some nm ∧ toLowerCase nm = lowerTag)
    as Hmatching.
  { intros n. unfold matching. rewrite list_elem_of_filter.
    unfold name_matches, name_is. split.
    - intros [Hn Hin]. split; [done|]. destruct (name n) as [nm|]; [|done].
      exists nm. split; [done|]. simpl in Hn. by apply bool_decide_unpack in Hn.
    - intros [Hin (nm & -> & Hnm)]. split; [|done]. simpl.
      by apply bool_decide_pack. }
  split; [by apply Hrun|]. repeat split.
  - etrans; [apply first_by_ref_sublist | apply sublist_filter].
  - apply first_by_ref_NoDup.
  - apply first_by_ref_elem in H as [H _]. by apply Hmatching in H as [? _].
  - apply first_by_ref_elem in H as [H _]. apply Hmatching in H as [H _].
    pose proof (walk_isTag root) as Htag. rewrite Forall_forall in Htag. by apply Htag.
  - apply first_by_ref_elem in H as [H _]. by apply Hmatching in H as [_ ?].
  - intros n nm Hn Hname Hlower.
    apply first_by_ref_covers; [|apply not_elem_of_empty].
    apply Hmatching. split; [done|]. by exists nm.
  - done.
Qed.

(** X18: [fastFindByTag] throws exactly when the walk reaches a tag-type
    node without a name (reading [toLowerCase] off the missing name fails),
    whatever tag name is asked for; on root nodes none of which is tag-type
    it returns nothing. *)
Theorem fastFindByTag_throws (root : list AnyNode) (tagName : jsstring) :
  (fastFindByTag toLowerCase root tagName = None
   ↔ ∃ n, n ∈ walk root ∧ name n = None)
  ∧ (Forall (λ n, isTag n = false) root →
     fastFindByTag toLowerCase root tagName = Some []).
Proof.
  split.
  - rewrite fastFindByTag_flat. split.
    + intros Hnone.
      destruct (decide (Forall (λ n, is_Some (name n)) (walk root))) as [Hall|Hex].
      * destruct (tag_loop_named (toLowerCase tagName) _ search_start Hall)
          as (st' & Hst' & _). by rewrite Hst' in Hnone.
      * apply not_Forall_Exists in Hex; [|apply _].
        apply Exists_exists in Hex as (n & Hn & Hname). exists n. split; [done|].
        destruct (name n) eqn:Hnm; [|done]. exfalso. apply Hname.
        rewrite Hnm. eauto.
    + intros (n & Hn & Hname).
      rewrite tag_loop_nameless; [done|]. apply Exists_exists. by exists n.
  - intros Hroot. rewrite fastFindByTag_flat. by rewrite (walk_not_tags root Hroot).
Qed.
End fastFindByTag_facts.

Lemma fastFindByTag_complete_witness :
  ∃ found,
    fastFindByTag ascii_toLowerCase [upper_div] (js "div") = Some found
    ∧ fastFindByTag ascii_toLowerCase [upper_div] (js "dIV") = Some found
    ∧ ref <$> found = [60; 62]%positive.
Proof.
  destruct (fastFindByTag_complete ascii_toLowerCase [upper_div] (js "div"))
    as (found & Hfound & _ & _ & _ & _ & Hsame).
  - repeat constructor; by eexists.
  - exists found. split; [done|]. split; [by apply Hsame|].
    vm_compute in Hfound. by injection Hfound as <-.
Defined.

Lemma fastFindByTag_throws_witness :
  fastFindByTag ascii_toLowerCase [ul; nameless] (js "li") = None
  ∧ fastFindByTag ascii_toLowerCase [document; comment] (js "li") = Some [].
Proof.
  destruct (fastFindByTag_throws ascii_toLowerCase [ul; nameless] (js "li"))
    as [[_ Hthrows] _].
  destruct (fastFindByTag_throws ascii_toLowerCase [document; comment] (js "li"))
    as [_ Hnone].
  split.
  - apply Hthrows. exists nameless. split; [|reflexivity].
    change (walk [ul; nameless]) with [ul; li_first; li_second; li_other; nameless].
    do 4 apply list_elem_of_further. apply list_elem_of_here.
  - apply Hnone. by repeat constructor.
Defined.

(** ** The wrapper pool *)

Section pool_more_facts.
Context {T : Type}.
Variable truthy : T → bool.
Variable factory : nat → T.

(** X19: an object released into a pool with room (the number of pooled
    instances is below [maxSize]) and acquired right away comes back, the
    factory is not invoked, and the pool is as it was before the release
    (the object being truthy, as every object is). *)
Theorem pool_release_then_acquire (p : WrapperPool.t) (obj : T) :
  length_lt (length (WrapperPool.pool p)) (WrapperPool.maxSize p) = true →
  truthy obj = true →
  WrapperPool.acquire truthy factory (WrapperPool.release p obj) = (obj, p).
Proof.
  intros Hroom Hobj. unfold WrapperPool.release. rewrite Hroom.
  rewrite (pool_acquire_top _ _ _ (WrapperPool.pool p) obj) by done.
  rewrite Hobj. by destruct p.
Qed.

Lemma pool_step_calls (p : WrapperPool.t) o :
  let p' := WrapperPool.step truthy factory p o in
  (WrapperPool.calls p ≤ WrapperPool.calls p'
   ≤ WrapperPool.calls p + (if is_acquire o then 1 else 0))%nat.
Proof.
  destruct o as [|obj|]; simpl.
  - unfold WrapperPool.acquire, WrapperPool.pop.
    destruct (last _) as [obj|]; [destruct (truthy obj)|]; simpl; lia.
  - unfold WrapperPool.release. destruct (length_lt _ _); simpl; lia.
  - lia.
Qed.

(** X20: the factory is invoked by [acquire] only, at most once per call:
    over any run of calls the number of invocations never decreases and
    grows by at most the number of [acquire] calls in the run. *)
Theorem pool_factory_calls (p : WrapperPool.t) (ops : list WrapperPool.op) :
  let p' := WrapperPool.run truthy factory p ops in
  (WrapperPool.calls p ≤ WrapperPool.calls p'
   ≤ WrapperPool.calls p + length (filter (λ o, is_acquire o) ops))%nat.
Proof.
  revert p. induction ops as [|o ops IH]; intros p; simpl; [lia|].
  pose proof (pool_step_calls p o) as Hstep.
  specialize (IH (WrapperPool.step truthy factory p o)). simpl in Hstep, IH.
  destruct (is_acquire o) eqn:Ho.
  - rewrite filter_cons_True by (by rewrite Ho). simpl. lia.
  - rewrite filter_cons_False by (rewrite Ho; simpl; tauto). lia.
Qed.

(** X21: of a run of [release] calls the pool keeps, in order and on top of
    what it held, the objects released while it holds fewer than [maxSize]
    instances: those that bring it up to the capacity, the least natural
    number not below [maxSize] (2 for 1.5, 0 for a negative number or [NaN]),
    and all of them when [maxSize] is [+Infinity]; it drops the others. *)
Theorem pool_releases (p : WrapperPool.t) (objs : list T) :
  WrapperPool.pool (WrapperPool.run truthy factory p (WrapperPool.Release <$> objs))
  = match capacity (WrapperPool.maxSize p) with
    | Some c => WrapperPool.pool p ++ take (c - length (WrapperPool.pool p)) objs
    | None => WrapperPool.pool p ++ objs
    end.
Proof.
  revert p. induction objs as [|obj objs IH]; intros p; simpl.
  - destruct (capacity _); by rewrite ?take_nil, app_nil_r.
  - rewrite IH. unfold WrapperPool.release. rewrite length_lt_capacity.
    destruct (capacity (WrapperPool.maxSize p)) as [c|] eqn:Hc.
    + destruct (Nat.ltb_spec (length (WrapperPool.pool p)) c) as [Hroom|Hfull];
        simpl; rewrite Hc.
      * rewrite length_app. simpl.
        replace (c - length (WrapperPool.pool p))%nat
          with (S (c - (length (WrapperPool.pool p) + 1))) by lia.
        by rewrite <- app_assoc.
      * replace (c - length (WrapperPool.pool p))%nat with 0%nat by lia.
        by rewrite !take_0.
    + simpl. rewrite Hc. by rewrite <- app_assoc.
Qed.
End pool_more_facts.

Lemma pool_release_then_acquire_witness :
  WrapperPool.acquire (λ z, negb (z =? 0)) (λ k, 100 + Z.of_nat k)
    (WrapperPool.release (number_pool [WrapperPool.Release 1]) 7)
  = (7, number_pool [WrapperPool.Release 1]).
Proof.
  apply pool_release_then_acquire; reflexivity.
Defined.

(** With [maxSize] 1.5 an empty pool keeps two of three released objects,
    with [maxSize] 2 two as well, and with [+Infinity] all three. *)
Lemma pool_releases_witness :
  let objs := [1; 2; 3] in
  let pool_of maxSize :=
    WrapperPool.pool
      (WrapperPool.run (λ z, negb (z =? 0)) (λ k, 100 + Z.of_nat k)
         (WrapperPool.createWrapperPool (Some maxSize)) (WrapperPool.Release <$> objs)) in
  pool_of (Finite (3 # 2)) = [1; 2]
  ∧ pool_of (number_of_nat 2) = [1; 2]
  ∧ pool_of (Finite (-1 # 1)) = []
  ∧ pool_of NotANumber = []
  ∧ pool_of PosInfinity = [1; 2; 3].
Proof.
  intros objs pool_of. unfold pool_of.
  rewrite !pool_releases. by vm_compute.
Defined.

(** ** Class names as white-space delimited words *)

(** A piece of the split is the current piece completed, or stands further
    on after a white-space character. *)
Lemma split_spaces_from_piece (p : jsstring) (s : jsstring) in_run acc :
  p ∈ split_spaces_from in_run acc s →
  (∃ q after, p = rev acc ++ q ∧ s = q ++ after ∧ starts_at_space after)
  ∨ (∃ mid c after, s = mid ++ [c] ++ p ++ after ∧ is_space c = true
                    ∧ starts_at_space after).
Proof.
  revert in_run acc. induction s as [|c s IH]; intros in_run acc; simpl.
  - intros ->%list_elem_of_singleton. left. exists [], [].
    split; [by rewrite app_nil_r|]. split; [done | by left].
  - assert (p ∈ split_spaces_from true [] s →
            is_space c = true →
            ∃ mid c0 after, c :: s = mid ++ [c0] ++ p ++ after ∧ is_space c0 = true
                            ∧ starts_at_space after) as Hnext.
    { intros Hp Hc. destruct (IH _ _ Hp) as
        [(q & after & -> & -> & Hafter) | (mid & c0 & after & -> & Hc0 & Hafter)].
      - by exists [], c, after.
      - by exists (c :: mid), c0, after. }
    destruct (is_space c) eqn:Hc.
    + destruct in_run.
      * intros Hp. right. by apply Hnext.
      * intros [->|Hp]%elem_of_cons; [|right; by apply Hnext].
        left. exists [], (c :: s). split; [by rewrite app_nil_r|].
        split; [done|]. right. by exists c, s.
    + intros Hp. destruct (IH _ _ Hp) as
        [(q & after & -> & -> & Hafter) | (mid & c0 & after & -> & Hc0 & Hafter)].
      * left. exists (c :: q), after. simpl. by rewrite <- app_assoc.
      * right. by exists (c :: mid), c0, after.
Qed.

(** A word followed by white space or the end completes the current piece. *)
Lemma split_spaces_from_word (p after : jsstring) in_run acc :
  Forall (λ c, is_space c = false) p →
  starts_at_space after →
  p ≠ [] ∨ in_run = false →
  rev acc ++ p ∈ split_spaces_from in_run acc (p ++ after).
Proof.
  intros Hp Hafter. revert in_run acc.
  induction Hp as [|x p Hx _ IH]; intros in_run acc Hrun; simpl.
  - destruct Hrun as [?| ->]; [done|]. rewrite app_nil_r.
    destruct Hafter as [->|(c & after' & -> & Hc)]; simpl.
    + by left.
    + rewrite Hc. by left.
  - rewrite Hx. replace (rev acc ++ x :: p) with (rev (x :: acc) ++ p)
      by (simpl; by rewrite <- app_assoc).
    apply IH. by right.
Qed.

Lemma split_spaces_from_later (p before after : jsstring) c in_run acc :
  Forall (λ c, is_space c = false) p → p ≠ [] →
  is_space c = true → starts_at_space after →
  p ∈ split_spaces_from in_run acc ((before ++ [c]) ++ p ++ after).
Proof.
  intros Hp Hne Hc Hafter. revert in_run acc.
  assert (p ∈ split_spaces_from true [] (p ++ after)) as Hword.
  { apply (split_spaces_from_word p after true []); auto. }
  induction before as [|x before IH]; intros in_run acc; simpl.
  - rewrite Hc. destruct in_run; [done | by right].
  - destruct (is_space x); [destruct in_run|]; [apply IH | right; apply IH | apply IH].
Qed.

(** X22: for a class name that is not empty and holds no white space, an
    element matches exactly when the name stands in its [class] attribute
    as a word: with the start of the value or a white-space character before
    it and the end of the value or a white-space character after it. *)
Theorem has_class_delimited (className : jsstring) (n : AnyNode) :
  className ≠ [] →
  Forall (λ c, is_space c = false) className →
  has_class className n = true
  ↔ ∃ v, attrib n (js "class") = Some v ∧ delimited className v.
Proof.
  intros Hne Hword. unfold has_class, classes. rewrite bool_decide_eq_true.
  destruct (attrib n (js "class")) as [v|].
  - split.
    + intros Hin. exists v. split; [done|]. unfold split_spaces in Hin.
      destruct (split_spaces_from_piece _ _ _ _ Hin) as
        [(q & after & -> & -> & Hafter) | (mid & c & after & -> & Hc & Hafter)].
      * exists [], after. split; [done|]. split; [by left | done].
      * exists (mid ++ [c]), after. split; [by rewrite <- app_assoc|].
        split; [right; by exists mid, c | done].
    + intros (? & [= <-] & before & after & -> & Hbefore & Hafter).
      destruct Hbefore as [->|(before' & c & -> & Hc)].
      * apply (split_spaces_from_word className after false []); auto.
      * by apply split_spaces_from_later.
  - split; [by intros ?%elem_of_nil | by intros (? & [=] & _)].
Qed.

Lemma has_class_delimited_witness : has_class (js "featured") li_first = true.
Proof.
  apply has_class_delimited; [done | by repeat constructor |].
  exists (js "item featured"). split; [reflexivity|].
  exists (js "item "), []. split; [reflexivity|].
  split; [right; by exists (js "item"), 32%N | by left].
Defined.
